(** * Complex tensor operators and Fourier-optics propagation

    A shallow embedding of [operators.py] and [propagation.py]: tensors are a
    shape with row-major data over the real numbers (exact arithmetic), every
    Python exception is an explicit [Error] result, and the library calls
    [torch.fft] / [torch.ifft] are parameters of the propagation code.

    Rounding, overflow and non-finite values of float32 are outside the
    model.  The properties stated of the repository's own arithmetic do not
    rest on identities that hold of the real numbers only (an exact inverse
    of a product or a quotient, an exact square root, [cos^2 + sin^2 = 1]);
    that [torch.ifft] undoes [torch.fft] is a hypothesis on the library
    wherever it is used. *)

From Stdlib Require Import Reals List Arith ZArith Lia Lra Bool.
Import ListNotations.

(** ** Exceptions as results *)

Inductive error : Type :=
| AssertionError   (* a failed [assert]: the shape error of the operators *)
| IndexError       (* indexing a missing axis or position *)
| RuntimeError     (* torch: shapes that do not broadcast, stack or permute *)
| AttributeError   (* a method the object does not have *)
| TypeError.

Inductive result (A : Type) : Type :=
| OK (a : A)
| Error (e : error).

Arguments OK {A} a.
Arguments Error {A} e.

Definition bind {A B : Type} (r : result A) (k : A -> result B) : result B :=
  match r with
  | OK a => k a
  | Error e => Error e
  end.

Notation "x <- r ;; k" := (bind r (fun x => k))
  (at level 61, r at next level, right associativity).

Definition assert (b : bool) : result unit :=
  if b then OK tt else Error AssertionError.

(** A Python [for] loop whose body may raise, threading the loop variable
    that the body rebinds. *)
Fixpoint for_each {A S : Type} (xs : list A) (body : A -> S -> result S) (s : S)
  : result S :=
  match xs with
  | [] => OK s
  | x :: xs' => s' <- body x s ;; for_each xs' body s'
  end.

(** ** Tensors *)

Record tensor : Type := mkTensor { tshape : list nat; tdata : list R }.

Definition numel (s : list nat) : nat := fold_right Nat.mul 1 s.

Definition rank (t : tensor) : nat := length (tshape t).

(** The storage holds one value per position of the shape. *)
Definition wf (t : tensor) : Prop := length (tdata t) = numel (tshape t).

(** Multi-indices of a shape in row-major order. *)
Fixpoint indices (s : list nat) : list (list nat) :=
  match s with
  | [] => [[]]
  | n :: s' => flat_map (fun i => map (cons i) (indices s')) (seq 0 n)
  end.

(** Row-major offset of a multi-index. *)
Fixpoint ravel (s idx : list nat) : nat :=
  match s, idx with
  | _ :: s', i :: idx' => i * numel s' + ravel s' idx'
  | _, _ => 0
  end.

Definition tget (t : tensor) (idx : list nat) : R :=
  nth (ravel (tshape t) idx) (tdata t) 0%R.

Definition tabulate (s : list nat) (f : list nat -> R) : tensor :=
  mkTensor s (map f (indices s)).

Definition in_range (s idx : list nat) : Prop := Forall2 lt idx s.

(** Elementwise unary operation ([torch.cos], [t**2], [a * t], ...). *)
Definition tmap (f : R -> R) (t : tensor) : tensor :=
  mkTensor (tshape t) (map f (tdata t)).

(** ** Index helpers *)

Definition last_dim (s : list nat) : option nat :=
  match rev s with
  | [] => None
  | n :: _ => Some n
  end.

Fixpoint remove_nth {A : Type} (k : nat) (l : list A) : list A :=
  match k, l with
  | _, [] => []
  | 0, _ :: l' => l'
  | S k', x :: l' => x :: remove_nth k' l'
  end.

Fixpoint insert_nth {A : Type} (k : nat) (x : A) (l : list A) : list A :=
  match k, l with
  | 0, _ => x :: l
  | S k', y :: l' => y :: insert_nth k' x l'
  | S _, [] => [x]
  end.

Fixpoint upd_nth {A : Type} (k : nat) (x : A) (l : list A) : list A :=
  match k, l with
  | _, [] => []
  | 0, _ :: l' => x :: l'
  | S k', y :: l' => y :: upd_nth k' x l'
  end.

Definition rsum (n : nat) (f : nat -> R) : R :=
  fold_right Rplus 0%R (map f (seq 0 n)).

(** ** Broadcasting *)

(** Shapes are aligned at the trailing axis; two sizes agree when they are
    equal or one of them is 1. *)
Fixpoint bshape_rev (a b : list nat) : option (list nat) :=
  match a, b with
  | [], _ => Some b
  | _, [] => Some a
  | x :: a', y :: b' =>
      match bshape_rev a' b' with
      | None => None
      | Some r =>
          if x =? y then Some (x :: r)
          else if x =? 1 then Some (y :: r)
          else if y =? 1 then Some (x :: r)
          else None
      end
  end.

Definition broadcast_shape (a b : list nat) : option (list nat) :=
  option_map (@rev nat) (bshape_rev (rev a) (rev b)).

(** Position in an operand of shape [s] read for position [idx] of the
    broadcast result. *)
Definition bindex (s idx : list nat) : list nat :=
  map (fun p => if fst p =? 1 then 0 else snd p)
      (combine s (skipn (length idx - length s) idx)).

Definition bop (f : R -> R -> R) (t1 t2 : tensor) : result tensor :=
  match broadcast_shape (tshape t1) (tshape t2) with
  | None => Error RuntimeError
  | Some s =>
      OK (tabulate s (fun idx =>
            f (tget t1 (bindex (tshape t1) idx)) (tget t2 (bindex (tshape t2) idx))))
  end.

(** [v] expands to the shape [s] without enlarging it. *)
Definition expands_to (v s : list nat) : bool :=
  match broadcast_shape v s with
  | Some r => if list_eq_dec Nat.eq_dec r s then true else false
  | None => false
  end.

Fixpoint strip_ones (s : list nat) : list nat :=
  match s with
  | 1 :: s' => strip_ones s'
  | _ => s
  end.

(** The value of an indexed assignment into a region of shape [s]: a value
    of that very shape is copied; otherwise torch drops its leading axes of
    size 1 and expands the rest. *)
Definition setitem_view (v : tensor) (s : list nat) : result tensor :=
  if list_eq_dec Nat.eq_dec (tshape v) s then OK v
  else
    let v' := mkTensor (strip_ones (tshape v)) (tdata v) in
    if expands_to (tshape v') s then OK v' else Error RuntimeError.

(** ** Indexing, stacking and reductions of torch *)

(** [t[..., k]] *)
Definition select_last (k : nat) (t : tensor) : result tensor :=
  match last_dim (tshape t) with
  | None => Error IndexError
  | Some n =>
      if k <? n
      then OK (tabulate (removelast (tshape t)) (fun idx => tget t (idx ++ [k])))
      else Error IndexError
  end.

(** [t[..., k] = v], on a tensor the caller has just cloned. *)
Definition set_last (k : nat) (v t : tensor) : result tensor :=
  match last_dim (tshape t) with
  | None => Error IndexError
  | Some n =>
      if k <? n then
        v <- setitem_view v (removelast (tshape t)) ;;
        OK (tabulate (tshape t) (fun idx =>
              if last idx 0 =? k
              then tget v (bindex (tshape v) (removelast idx))
              else tget t idx))
      else Error IndexError
  end.

(** [torch.stack((a, b), dim=dim)]: a new axis of size 2 at position [dim]. *)
Definition torch_stack (a b : tensor) (dim : nat) : result tensor :=
  if dim <=? rank a then
    if list_eq_dec Nat.eq_dec (tshape a) (tshape b)
    then OK (tabulate (insert_nth dim 2 (tshape a)) (fun idx =>
               if nth dim idx 0 =? 0 then tget a (remove_nth dim idx)
               else tget b (remove_nth dim idx)))
    else Error RuntimeError
  else Error IndexError.

(** [torch.stack((a, b), dim=len(a.shape))]: the new axis is the trailing
    one. *)
Definition stack_last (a b : tensor) : result tensor :=
  torch_stack a b (rank a).

(** [t.sum(k)] for [0 <= k]; on a 0-dimensional tensor torch accepts the
    axis 0 and returns the tensor. *)
Definition sum_axis (k : nat) (t : tensor) : result tensor :=
  match tshape t with
  | [] => if k =? 0 then OK t else Error IndexError
  | _ =>
      if k <? rank t
      then OK (tabulate (remove_nth k (tshape t)) (fun idx =>
                 rsum (nth k (tshape t) 0) (fun i => tget t (insert_nth k i idx))))
      else Error IndexError
  end.

(** [t.sum(-1)]; torch accepts it on a 0-dimensional tensor too. *)
Definition sum_last (t : tensor) : result tensor :=
  match tshape t with
  | [] => OK t
  | _ => sum_axis (rank t - 1) t
  end.

(** [t.shape[-1] == 2]; the tuple index raises on a 0-dimensional tensor. *)
Definition trailing_is_2 (t : tensor) : result bool :=
  match last_dim (tshape t) with
  | None => Error IndexError
  | Some n => OK (n =? 2)
  end.

Definition assert_complex (t : tensor) : result unit :=
  b <- trailing_is_2 t ;; assert b.

(** ** operators.py: complex algebra primitives *)

(** [torch.atan2(y, x)], with values in (-pi, pi]. *)
Definition atan2 (y x : R) : R :=
  (if Rlt_dec 0 x then atan (y / x)
   else if Rlt_dec x 0 then
     (if Rle_dec 0 y then atan (y / x) + PI else atan (y / x) - PI)
   else if Rlt_dec 0 y then PI / 2
   else if Rlt_dec y 0 then - (PI / 2)
   else 0)%R.

Definition zeros_like (t : tensor) : tensor := tmap (fun _ => 0%R) t.

(** [r2c]: the tensor and a zeroed copy of it, both with a new trailing axis
    of size 1, concatenated along that axis. *)
Definition r2c (real_tensor : tensor) : result tensor :=
  stack_last real_tensor (zeros_like real_tensor).

Definition real (complex_tensor : tensor) : result tensor :=
  select_last 0 complex_tensor.

Definition imag (complex_tensor : tensor) : result tensor :=
  select_last 1 complex_tensor.

Definition conj (complex_tensor : tensor) : result tensor :=
  let complex_conj_tensor := complex_tensor in
  im <- select_last 1 complex_conj_tensor ;;
  set_last 1 (tmap (fun x => x * -1)%R im) complex_conj_tensor.

Definition angle (complex_tensor : tensor) : result tensor :=
  im <- select_last 1 complex_tensor ;;
  re <- select_last 0 complex_tensor ;;
  bop atan2 im re.

Definition exp (complex_tensor : tensor) : result tensor :=
  let output := complex_tensor in
  re <- select_last 0 complex_tensor ;;
  let amplitude := tmap Rtrigo_def.exp re in
  im <- select_last 1 complex_tensor ;;
  out_re <- bop Rmult amplitude (tmap cos im) ;;
  output <- set_last 0 out_re output ;;
  im <- select_last 1 complex_tensor ;;
  out_im <- bop Rmult amplitude (tmap sin im) ;;
  set_last 1 out_im output.

Definition multiply_complex (complex_tensor1 complex_tensor2 : tensor)
  : result tensor :=
  a <- select_last 0 complex_tensor1 ;;
  c <- select_last 0 complex_tensor2 ;;
  ac <- bop Rmult a c ;;
  b <- select_last 1 complex_tensor1 ;;
  d <- select_last 1 complex_tensor2 ;;
  bd <- bop Rmult b d ;;
  complex_tensor_mul_real <- bop Rminus ac bd ;;
  ad <- bop Rmult a d ;;
  bc <- bop Rmult b c ;;
  complex_tensor_mul_imag <- bop Rplus ad bc ;;
  stack_last complex_tensor_mul_real complex_tensor_mul_imag.

Definition division_complex (complex_tensor1 complex_tensor2 : tensor)
  : result tensor :=
  denominator <- sum_last (tmap (fun x => x ^ 2)%R complex_tensor2) ;;
  a <- select_last 0 complex_tensor1 ;;
  c <- select_last 0 complex_tensor2 ;;
  ac <- bop Rmult a c ;;
  b <- select_last 1 complex_tensor1 ;;
  d <- select_last 1 complex_tensor2 ;;
  bd <- bop Rmult b d ;;
  num_re <- bop Rplus ac bd ;;
  complex_tensor_mul_real <- bop Rdiv num_re denominator ;;
  bc <- bop Rmult b c ;;
  ad <- bop Rmult a d ;;
  num_im <- bop Rminus bc ad ;;
  complex_tensor_mul_imag <- bop Rdiv num_im denominator ;;
  stack_last complex_tensor_mul_real complex_tensor_mul_imag.

(** [abs]; the power [**0.5] of the non-negative sum is its square root. *)
Definition abs (complex_tensor : tensor) : result tensor :=
  _ <- assert_complex complex_tensor ;;
  s <- sum_last (tmap (fun x => x ^ 2)%R complex_tensor) ;;
  OK (tmap sqrt s).

(** ** Axis operations used by the shift and propagation code *)

(** A Python axis number, negative ones counting from the end. *)
Definition norm_axis (r : nat) (axis : Z) : result nat :=
  if ((0 <=? axis) && (axis <? Z.of_nat r))%Z then OK (Z.to_nat axis)
  else if ((- Z.of_nat r <=? axis) && (axis <? 0))%Z
       then OK (Z.to_nat (axis + Z.of_nat r))
       else Error IndexError.

(** [torch.roll(t, shift, dims=dim)]: position [i] of the axis receives the
    value of position [(i - shift) mod n]. *)
Definition roll_source (s : list nat) (shift : Z) (dim : nat) (idx : list nat)
  : list nat :=
  upd_nth dim
    (Z.to_nat ((Z.of_nat (nth dim idx 0) - shift) mod Z.of_nat (nth dim s 0)))
    idx.

Definition roll (t : tensor) (shift : Z) (dim : nat) : tensor :=
  tabulate (tshape t) (fun idx => tget t (roll_source (tshape t) shift dim idx)).

(** [t.unsqueeze(k)] *)
Definition unsqueeze (k : nat) (t : tensor) : result tensor :=
  if k <=? rank t
  then OK (tabulate (insert_nth k 1 (tshape t)) (fun idx => tget t (remove_nth k idx)))
  else Error IndexError.

(** [t.repeat] with the repetition counts [reps] *)
Definition repeat_tensor (reps : list nat) (t : tensor) : result tensor :=
  if length reps <? rank t then Error RuntimeError
  else
    let pad := length reps - rank t in
    let s := repeat 1 pad ++ tshape t in
    OK (tabulate (map (fun p => fst p * snd p) (combine reps s)) (fun idx =>
          tget t (map (fun p => snd p mod fst p)
                      (combine (tshape t) (skipn pad idx))))).

Fixpoint index_of (j : nat) (dims : list nat) : nat :=
  match dims with
  | [] => 0
  | d :: dims' => if d =? j then 0 else S (index_of j dims')
  end.

Definition is_permutation (dims : list nat) (r : nat) : bool :=
  (length dims =? r) && forallb (fun j => existsb (Nat.eqb j) dims) (seq 0 r).

(** [t.permute] with the axis order [dims]: axis [k] of the result is axis [dims[k]] of [t]. *)
Definition permute (dims : list nat) (t : tensor) : result tensor :=
  if is_permutation dims (rank t)
  then OK (tabulate (map (fun d => nth d (tshape t) 0) dims) (fun idx =>
             tget t (map (fun j => nth (index_of j dims) idx 0) (seq 0 (rank t)))))
  else Error RuntimeError.

(** Position [i] of axis [ax]: [t[i, ...]] for axis 0, [t[:, :, i, :]] for
    axis 2. *)
Definition select_axis (ax i : nat) (t : tensor) : result tensor :=
  if (ax <? rank t) && (i <? nth ax (tshape t) 0)
  then OK (tabulate (remove_nth ax (tshape t)) (fun idx => tget t (insert_nth ax i idx)))
  else Error IndexError.

(** [t[i, ...] = v] *)
Definition assign_first (i : nat) (v t : tensor) : result tensor :=
  match tshape t with
  | [] => Error IndexError
  | n :: s =>
      if i <? n then
        v <- setitem_view v s ;;
        OK (tabulate (tshape t) (fun idx =>
              if hd 0 idx =? i then tget v (bindex (tshape v) (tl idx))
              else tget t idx))
      else Error IndexError
  end.

(** ** operators.py: shifts *)

Definition fftshift (tensor_in : tensor) (axes : list Z) : result tensor :=
  let ret := tensor_in in
  for_each axes (fun axis ret =>
    ax <- norm_axis (rank ret) axis ;;
    OK (roll ret (Z.of_nat (nth ax (tshape ret) 0 / 2)) ax)) ret.

Definition ifftshift (tensor_in : tensor) (axes : list Z) : result tensor :=
  let ret := tensor_in in
  for_each axes (fun axis ret =>
    ax <- norm_axis (rank ret) axis ;;
    OK (roll ret (-1 * Z.of_nat (nth ax (tshape ret) 0 / 2)) ax)) ret.

(** The axes a shift accepts for a tensor of rank [r]. *)
Definition valid_axis (r : nat) (axis : Z) : Prop :=
  (- Z.of_nat r <= axis < Z.of_nat r)%Z.

(** One loop of rolls, each axis by an amount computed from its length. *)
Definition shift_axes (amount : nat -> Z) (t : tensor) (axes : list Z)
  : result tensor :=
  for_each axes (fun axis ret =>
    ax <- norm_axis (rank ret) axis ;;
    OK (roll ret (amount (nth ax (tshape ret) 0)) ax)) t.

(** Every listed axis of [t] has even length. *)
Definition even_axes (t : tensor) (axes : list Z) : Prop :=
  forall a ax, In a axes -> norm_axis (rank t) a = OK ax ->
               Nat.even (nth ax (tshape t) 0) = true.

(** ** operators.py: differentiable operators

    Each class is a forward function returning the output together with the
    tensors saved for the backward function. *)

Definition ComplexConj_forward (tensor_in : tensor) : result tensor :=
  conj tensor_in.

Definition ComplexConj_backward (grad_output : tensor) : result tensor :=
  conj grad_output.

Definition ComplexMul_forward (input1 input2 : tensor)
  : result (tensor * (tensor * tensor)) :=
  _ <- assert_complex input1 ;;
  _ <- assert_complex input2 ;;
  output <- multiply_complex input1 input2 ;;
  OK (output, (input1, input2)).

Definition ComplexMul_backward (saved_tensors : tensor * tensor)
  (grad_output : tensor) : result (tensor * tensor) :=
  let '(input1, input2) := saved_tensors in
  c2 <- conj input2 ;;
  grad_input1 <- multiply_complex c2 grad_output ;;
  c1 <- conj input1 ;;
  grad_input2 <- multiply_complex c1 grad_output ;;
  if rank input2 <? rank input1 then
    grad_input2 <- sum_axis 0 grad_input2 ;;
    OK (grad_input1, grad_input2)
  else if rank input1 <? rank input2 then
    grad_input1 <- sum_axis 0 grad_input1 ;;
    OK (grad_input1, grad_input2)
  else OK (grad_input1, grad_input2).

Definition ComplexDiv_forward (input1 input2 : tensor)
  : result (tensor * (tensor * tensor)) :=
  _ <- assert_complex input1 ;;
  _ <- assert_complex input2 ;;
  output <- division_complex input1 input2 ;;
  OK (output, (input1, input2)).


Definition ComplexAbs_forward (tensor_in : tensor) : result (tensor * tensor) :=
  _ <- assert_complex tensor_in ;;
  s <- sum_last (tmap (fun x => x ^ 2)%R tensor_in) ;;
  let output := tmap sqrt s in
  OK (output, tensor_in).

Definition ComplexAbs_backward (tensor_in grad_output : tensor) : result tensor :=
  grad_input <- stack_last grad_output (zeros_like grad_output) ;;
  phase_input <- angle tensor_in ;;
  phase_input <- torch_stack (tmap cos phase_input) (tmap sin phase_input)
                   (rank grad_output) ;;
  grad_input <- multiply_complex phase_input grad_input ;;
  OK (tmap (fun x => 0.5 * x)%R grad_input).

Definition ComplexAbs2_forward (tensor_in : tensor) : result (tensor * tensor) :=
  _ <- assert_complex tensor_in ;;
  c <- conj tensor_in ;;
  output <- multiply_complex c tensor_in ;;
  out0 <- select_last 0 output ;;
  OK (out0, tensor_in).

Definition ComplexAbs2_backward (tensor_in grad_output : tensor) : result tensor :=
  grad_output_c <- stack_last grad_output (zeros_like grad_output) ;;
  multiply_complex tensor_in grad_output_c.

Definition ComplexExp_forward (tensor_in : tensor) : result (tensor * tensor) :=
  _ <- assert_complex tensor_in ;;
  output <- exp tensor_in ;;
  OK (output, output).

Definition ComplexExp_backward (output grad_output : tensor) : result tensor :=
  c <- conj output ;;
  multiply_complex c grad_output.

(** ** propagation.py *)

(** The offsets handed to the defocus operator: a Python list of floats (as
    the default argument [[0.0]]) or a one-dimensional tensor. *)
Inductive defocus_list_t : Type :=
| PyList (l : list R)
| TorchTensor (l : list R).

Definition offsets (defocus_list : defocus_list_t) : list R :=
  match defocus_list with
  | PyList l => l
  | TorchTensor l => l
  end.

Definition default_defocus_list : defocus_list_t := PyList [0%R].

(** [defocus_list.clone()]: a method of tensors only. *)
Definition clone_defocus_list (defocus_list : defocus_list_t) : result (list R) :=
  match defocus_list with
  | PyList _ => Error AttributeError
  | TorchTensor l => OK l
  end.

(** [t.sum((0,1))] *)
Definition sum_axes01 (t : tensor) : result tensor :=
  if 2 <=? rank t then s <- sum_axis 1 t ;; sum_axis 0 s else Error IndexError.

(** [grad_defocus_list[i] = v] for a tensor [v] that holds one scalar. *)
Definition assign_scalar (i : nat) (v : tensor) (l : list R) : result (list R) :=
  if i <? length l then
    match strip_ones (tshape v) with
    | [] => OK (upd_nth i (nth 0 (tdata v) 0%R) l)
    | _ => Error RuntimeError
    end
  else Error IndexError.

(** Lines 30-31 of [Defocus.forward]: the kernel of one offset. *)
Definition Defocus_forward_kernel (kernel : tensor) (d : R) : result tensor :=
  kernel_temp <- exp (tmap (Rmult (Rabs d)) kernel) ;;
  if Rlt_dec 0 d then OK kernel_temp else conj kernel_temp.

(** Lines 30-32 of [Defocus.forward]: the body of the loop over the
    offsets. *)
Definition Defocus_forward_step (kernel : tensor) (defocus_list : defocus_list_t)
  (defocus_idx : nat) (field : tensor) : result tensor :=
  kernel_temp <- Defocus_forward_kernel kernel
                   (nth defocus_idx (offsets defocus_list) 0%R) ;;
  slice <- select_axis 0 defocus_idx field ;;
  prod <- multiply_complex slice kernel_temp ;;
  assign_first defocus_idx prod field.

(** Lines 43-44 of [Defocus.backward]. *)
Definition Defocus_backward_kernel (kernel : tensor) (d : R) : result tensor :=
  kernel_temp <- exp (tmap (Rmult (Rabs d)) kernel) ;;
  if Rlt_dec d 0 then OK kernel_temp else conj kernel_temp.

Record SingleSlicePropagation : Type :=
  { kernel_phase : tensor }.

Record MultislicePropagation : Type :=
  { shape : nat * nat * nat;
    voxel_size : R * R * R;
    distance_to_center : R;
    propagate : SingleSlicePropagation }.

Section Propagation.

(** [torch.fft(t, signal_ndim)] and [torch.ifft(t, signal_ndim)]. *)
Variables torch_fft torch_ifft : tensor -> nat -> result tensor.

(** [aperture.generate_angular_spectrum_kernel(shape, pixel_size,
    wavelength, ...)], of a module outside this code. *)
Variable generate_angular_spectrum_kernel : nat * nat -> R -> R -> tensor.

Definition convolve_kernel (tensor_in kernel : tensor) (n_dim : nat)
  (flag_inplace : bool) : result tensor :=
  if flag_inplace then
    tensor_in <- torch_fft tensor_in n_dim ;;
    tensor_in <- multiply_complex tensor_in kernel ;;
    tensor_in <- torch_ifft tensor_in n_dim ;;
    OK tensor_in
  else
    output <- torch_fft tensor_in n_dim ;;
    output <- multiply_complex output kernel ;;
    output <- torch_ifft output n_dim ;;
    OK output.

Definition ComplexConv_forward (tensor_in kernel_in : tensor) (n_dim : nat)
  (flag_inplace : bool) : result (tensor * (tensor * nat * bool)) :=
  out <- convolve_kernel tensor_in kernel_in n_dim flag_inplace ;;
  OK (out, (kernel_in, n_dim, flag_inplace)).

Definition ComplexConv_backward (ctx : tensor * nat * bool)
  (grad_output : tensor) : result (tensor * tensor) :=
  let '(kernel_in, n_dim, flag_inplace) := ctx in
  ck <- conj kernel_in ;;
  g1 <- convolve_kernel grad_output ck n_dim flag_inplace ;;
  cg <- conj grad_output ;;
  g2 <- convolve_kernel cg kernel_in n_dim flag_inplace ;;
  OK (g1, g2).

Definition complex_mul (a b : tensor) : result tensor :=
  r <- ComplexMul_forward a b ;; OK (fst r).

Definition complex_exp (a : tensor) : result tensor :=
  r <- ComplexExp_forward a ;; OK (fst r).

Definition complex_conj (a : tensor) : result tensor :=
  ComplexConj_forward a.

Definition complex_conv (a k : tensor) (n_dim : nat) (flag_inplace : bool)
  : result tensor :=
  r <- ComplexConv_forward a k n_dim flag_inplace ;; OK (fst r).

Definition Defocus_forward (field kernel : tensor)
  (defocus_list : defocus_list_t)
  : result (tensor * (tensor * tensor * defocus_list_t)) :=
  field <- torch_fft field 2 ;;
  let ctx := (kernel, field, defocus_list) in
  let len := length (offsets defocus_list) in
  field <- unsqueeze 2 field ;;
  field <- repeat_tensor [1; 1; len; 1] field ;;
  field <- permute [2; 0; 1; 3] field ;;
  field <- for_each (seq 0 len) (Defocus_forward_step kernel defocus_list) field ;;
  field <- torch_ifft field 2 ;;
  field <- permute [1; 2; 0; 3] field ;;
  OK (field, ctx).

Definition Defocus_backward (ctx : tensor * tensor * defocus_list_t)
  (grad_output : tensor) : result (tensor * list R) :=
  let '(kernel, field, defocus_list) := ctx in
  grad_defocus_list <- clone_defocus_list defocus_list ;;
  grad_output <- permute [2; 0; 1; 3] grad_output ;;
  grad_output <- torch_fft grad_output 2 ;;
  st <- for_each (seq 0 (length (offsets defocus_list)))
    (fun defocus_idx st =>
       let '(grad_output, grad_defocus_list) := st in
       kernel_temp <- Defocus_backward_kernel kernel
                        (nth defocus_idx (offsets defocus_list) 0%R) ;;
       slice <- select_axis 0 defocus_idx grad_output ;;
       prod <- multiply_complex slice kernel_temp ;;
       grad_output <- assign_first defocus_idx prod grad_output ;;
       slice <- select_axis 0 defocus_idx grad_output ;;
       cf <- conj field ;;
       m <- multiply_complex slice cf ;;
       ck <- conj kernel ;;
       m <- multiply_complex m ck ;;
       m <- sum_axes01 m ;;
       m <- select_axis 0 0 m ;;
       grad_defocus_list <- assign_scalar defocus_idx m grad_defocus_list ;;
       OK (grad_output, grad_defocus_list))
    (grad_output, grad_defocus_list) ;;
  let '(grad_output, grad_defocus_list) := st in
  grad_output <- torch_ifft grad_output 2 ;;
  grad_output <- permute [1; 2; 0; 3] grad_output ;;
  grad_field <- sum_axis 2 grad_output ;;
  OK (grad_field, grad_defocus_list).

Definition SingleSlicePropagation_init (shape : nat * nat)
  (pixel_size wavelength : R) : SingleSlicePropagation :=
  {| kernel_phase := generate_angular_spectrum_kernel shape pixel_size wavelength |}.

(** Lines 105-106 of [SingleSlicePropagation.forward]. *)
Definition SingleSlice_kernel (kernel_phase : tensor) (d : R) : result tensor :=
  kernel <- complex_exp (tmap (Rmult (Rabs d)) kernel_phase) ;;
  if Rlt_dec 0 d then OK kernel else complex_conj kernel.

Definition SingleSlicePropagation_forward (self : SingleSlicePropagation)
  (field_in : tensor) (propagation_distance : R) : result tensor :=
  if Req_EM_T propagation_distance 0 then OK field_in
  else
    kernel <- SingleSlice_kernel (kernel_phase self) propagation_distance ;;
    field_out <- complex_conv field_in kernel 2 false ;;
    OK field_out.

Definition MultislicePropagation_init (shape : nat * nat * nat)
  (voxel_size : R * R * R) (wavelength : R) : MultislicePropagation :=
  let '(h, w, l) := shape in
  let '(vx, vy, vz) := voxel_size in
  {| shape := shape;
     voxel_size := voxel_size;
     distance_to_center := ((INR l / 2 - 1 / 2) * vz)%R;
     propagate := SingleSlicePropagation_init (h, w) vx wavelength |}.

(** [obj[:, :, i, :]] *)
Definition layer (obj : tensor) (i : nat) : result tensor :=
  if 4 <=? rank obj then select_axis 2 i obj else Error IndexError.

Definition MultislicePropagation_forward (self : MultislicePropagation)
  (obj : tensor) (field_in : option tensor) : result tensor :=
  let '(_, _, shape2) := shape self in
  let '(_, _, voxel_size2) := voxel_size self in
  field <- match field_in with
           | None => layer obj 0
           | Some field => l0 <- layer obj 0 ;; complex_mul field l0
           end ;;
  field <- SingleSlicePropagation_forward (propagate self) field voxel_size2 ;;
  for_each (seq 1 (shape2 - 1)) (fun layer_idx field =>
    l <- layer obj layer_idx ;;
    field <- complex_mul field l ;;
    if layer_idx <? shape2 - 1
    then SingleSlicePropagation_forward (propagate self) field voxel_size2
    else SingleSlicePropagation_forward (propagate self) field
           (-1 * distance_to_center self)%R) field.

End Propagation.

(** ** The layer rule of multislice propagation, in the words of its
    description

    For each layer index [i = 0 .. L-1]: multiply the current field by the
    transmission of layer [i], then propagate by [s] after every layer except
    the last, and by [-(L/2 - 1/2) * s] after the last one. *)
Definition multislice_layer_rule
  (propagate_by : tensor -> R -> result tensor) (L : nat) (s : R)
  (obj field : tensor) : result tensor :=
  for_each (seq 0 L) (fun i field =>
    l <- layer obj i ;;
    field <- complex_mul field l ;;
    propagate_by field
      (if i <? L - 1 then s else (- (INR L / 2 - 1 / 2) * s)%R)) field.

(** ** What the propagation code assumes of [torch.fft] and [torch.ifft] *)

(** Inputs the transforms accept: complex tensors without empty axes that
    have [signal_ndim] signal axes before the trailing one. *)
Definition fft_domain (signal_ndim : nat) (t : tensor) : Prop :=
  wf t /\ last_dim (tshape t) = Some 2 /\
  1 <= signal_ndim <= 3 /\ signal_ndim < rank t /\
  Forall (lt 0) (tshape t).

(** The transforms keep the shape, the inverse transform undoes the forward
    one, and leading axes are batch axes: the inverse transform of a batch is
    the batch of the inverse transforms. *)
Record fourier_pair (torch_fft torch_ifft : tensor -> nat -> result tensor)
  : Prop :=
  { fft_total : forall n t, fft_domain n t ->
      exists F, torch_fft t n = OK F /\ tshape F = tshape t /\ wf F;
    ifft_total : forall n t, fft_domain n t ->
      exists f, torch_ifft t n = OK f /\ tshape f = tshape t /\ wf f;
    ifft_fft : forall n t F, fft_domain n t ->
      torch_fft t n = OK F -> torch_ifft F n = OK t;
    ifft_batch : forall n t i, fft_domain n t -> S n < rank t ->
      i < hd 0 (tshape t) ->
      (r <- torch_ifft t n ;; select_axis 0 i r)
      = (s <- select_axis 0 i t ;; torch_ifft s n) }.

Arguments fft_total {torch_fft torch_ifft} _.
Arguments ifft_total {torch_fft torch_ifft} _.
Arguments ifft_fft {torch_fft torch_ifft} _.
Arguments ifft_batch {torch_fft torch_ifft} _.

(** The kernel of the offset 0: [1 + 0j] everywhere. *)
Definition unit_kernel_values (idx : list nat) : R :=
  if last idx 0 =? 0 then 1%R else 0%R.

(** ** Values of the primitives, position by position *)

Definition conj_values (t : tensor) (idx : list nat) : R :=
  if last idx 0 =? 1 then (tget t idx * -1)%R else tget t idx.

Definition exp_values (t : tensor) (idx : list nat) : R :=
  let re := tget t (removelast idx ++ [0]) in
  let im := tget t (removelast idx ++ [1]) in
  if last idx 0 =? 1 then (Rtrigo_def.exp re * sin im)%R
  else if last idx 0 =? 0 then (Rtrigo_def.exp re * cos im)%R
  else tget t idx.

Definition mul_values (z1 z2 : tensor) (idx : list nat) : R :=
  let a := tget z1 (removelast idx ++ [0]) in
  let b := tget z1 (removelast idx ++ [1]) in
  let c := tget z2 (removelast idx ++ [0]) in
  let d := tget z2 (removelast idx ++ [1]) in
  if last idx 0 =? 0 then (a * c - b * d)%R else (a * d + b * c)%R.

(** Complex product of two (real, imaginary) pairs. *)
Definition cmul (x y : R * R) : R * R :=
  ((fst x * fst y - snd x * snd y)%R, (fst x * snd y + snd x * fst y)%R).

(** The gradient of the absolute value at one position:
    [0.5 * (cos(angle z), sin(angle z)) * (g, 0)]. *)
Definition ComplexAbs_grad (z g : tensor) (idx : list nat) : R :=
  let phi := atan2 (tget z (removelast idx ++ [1])) (tget z (removelast idx ++ [0])) in
  let p := cmul (cos phi, sin phi) (tget g (removelast idx), 0%R) in
  (0.5 * (if (last idx 0 =? 0)%nat then fst p else snd p))%R.

(** The products of the binary backward rules before any reduction. *)
Definition ComplexMul_product (other grad_output : tensor) : result tensor :=
  c <- conj other ;; multiply_complex c grad_output.



(** ** A model of the transforms: the discrete Fourier transform

    [torch.fft(t, signal_ndim)] computes, over each of the [signal_ndim] axes
    before the trailing one, [X[k] = sum_m x[m] * exp(-2 pi j k m / N)];
    [torch.ifft] uses the opposite sign and divides by [N].  The transforms
    are not part of the modelled code: this model only shows that the laws
    asked of them in [fourier_pair] hold of the textbook transform. *)

(** Channel [c] of [(re + j im) * exp(j * sign * 2 pi k m / n)]. *)
Definition dft_term (sign : R) (n k m : nat) (re im : R) (c : nat) : R :=
  let theta := (sign * (2 * PI * INR k * INR m / INR n))%R in
  if c =? 0 then (re * cos theta - im * sin theta)%R
  else (re * sin theta + im * cos theta)%R.

Definition dft_axis (sign : R) (ax : nat) (t : tensor) : tensor :=
  let n := nth ax (tshape t) 0 in
  tabulate (tshape t) (fun idx =>
    rsum n (fun m =>
      dft_term sign n (nth ax idx 0) m
        (tget t (upd_nth ax m (removelast idx) ++ [0]))
        (tget t (upd_nth ax m (removelast idx) ++ [1]))
        (last idx 0))).

Definition idft_axis (ax : nat) (t : tensor) : tensor :=
  let n := nth ax (tshape t) 0 in
  tmap (fun x => x / INR n)%R (dft_axis 1 ax t).

Definition fft_checks (t : tensor) (signal_ndim : nat) : bool :=
  match last_dim (tshape t) with
  | Some 2 => (1 <=? signal_ndim) && (signal_ndim <=? 3) && (signal_ndim <? rank t)
  | _ => false
  end.

Definition signal_axes (t : tensor) (signal_ndim : nat) : list nat :=
  seq (rank t - 1 - signal_ndim) signal_ndim.

Definition dft (t : tensor) (signal_ndim : nat) : result tensor :=
  if fft_checks t signal_ndim
  then OK (fold_left (fun acc ax => dft_axis (-1) ax acc)
                     (signal_axes t signal_ndim) t)
  else Error RuntimeError.

Definition idft (t : tensor) (signal_ndim : nat) : result tensor :=
  if fft_checks t signal_ndim
  then OK (fold_left (fun acc ax => idft_axis ax acc)
                     (rev (signal_axes t signal_ndim)) t)
  else Error RuntimeError.

(** ** Sample inputs *)

(** One complex number, [3 + 4j], as a tensor of shape [(1, 2)]. *)
Definition z_3_4j : tensor := mkTensor [1; 2] [3; 4]%R.

(** A 1 x 1 kernel phase [0 + (pi/2) j]. *)
Definition k_half_pi : tensor := mkTensor [1; 1; 2] [0; PI / 2]%R.

(** The complex number [1 + 0j] and the real number 1, as one-entry tensors. *)
Definition one_c : tensor := mkTensor [1; 2] [1; 0]%R.
Definition one_r : tensor := mkTensor [1] [1%R].

(** Two complex numbers [1 + 2j], [3 + 4j] along a leading axis, and all ones
    of that shape. *)
Definition pair_c : tensor := mkTensor [2; 1; 2] [1; 2; 3; 4]%R.
Definition ones_pair_c : tensor := mkTensor [2; 1; 2] [1; 0; 1; 0]%R.

(** The complex number [5 + 6j], shape (1, 2). *)
Definition z_5_6j : tensor := mkTensor [1; 2] [5; 6]%R.

(** A 1 x 2 field and a kernel phase of its shape. *)
Definition field_1x2 : tensor := mkTensor [1; 2; 2] [1; 2; 3; 4]%R.
Definition kernel_1x2 : tensor := mkTensor [1; 2; 2] [0; 1; 0; 2]%R.

(** A 1 x 1 field [1 + 0j], a volume of one layer of transmission [1 + 0j],
    and the 1 x 1 kernel phase [0 + pi j]. *)
Definition field_1x1 : tensor := mkTensor [1; 1; 2] [1; 0]%R.
Definition volume_1x1x1 : tensor := mkTensor [1; 1; 1; 2] [1; 0]%R.
Definition k_pi : tensor := mkTensor [1; 1; 2] [0; PI]%R.

(** A multislice model of one layer with unit voxels whose kernel phase is
    [k_pi]. *)
Definition multislice_1x1x1 : MultislicePropagation :=
  MultislicePropagation_init (fun _ _ _ => k_pi) (1, 1, 1) (1, 1, 1)%R 1%R.

(** A 2 x 3 real matrix. *)
Definition m_2x3 : tensor := mkTensor [2; 3] [1; 2; 3; 4; 5; 6]%R.

(** A 2 x 4 real matrix. *)
Definition m_2x4 : tensor := mkTensor [2; 4] [1; 2; 3; 4; 5; 6; 7; 8]%R.

(** A real vector of three entries: its trailing axis has size 3. *)
Definition vec3 : tensor := mkTensor [3] [1; 2; 3]%R.

(** ** Further values and inputs for the properties of the operators *)

(** A complex tensor whose trailing axis has size 1: only a real channel. *)
Definition only_real : tensor := mkTensor [2; 1] [1; 2]%R.

(** Entry of the gradients of the complex product [z1 * z2] for the output
    gradient [g]: [conj(other) * g]. *)
Definition mul_grad_values (other g : tensor) (idx : list nat) : R :=
  let c := tget other (removelast idx ++ [0]) in
  let d := tget other (removelast idx ++ [1]) in
  let gr := tget g (removelast idx ++ [0]) in
  let gi := tget g (removelast idx ++ [1]) in
  if last idx 0 =? 0 then (c * gr + d * gi)%R else (c * gi - d * gr)%R.

(** The plane wave [1 + 0j] on an H x W grid. *)
Definition unit_field (H W : nat) : tensor :=
  tabulate [H; W; 2] unit_kernel_values.

(** A volume of two layers on a 1 x 1 grid. *)
Definition volume_1x1x2 : tensor := mkTensor [1; 1; 2; 2] [1; 0; 0; 1]%R.




(** An output gradient for two offsets on the 1 x 2 grid. *)
Definition grad_1x2x2 : tensor :=
  mkTensor [1; 2; 2; 2] [1; 0; 0; 1; 2; 0; 0; 2]%R.

(** * Properties *)

(** ** Row-major indexing *)

Lemma nth_flat_map_seq (A : Type) (g : nat -> list A) (m n a i j : nat) (d : A) :
  (forall k, length (g k) = m) -> i < n -> j < m ->
  nth (i * m + j) (flat_map g (seq a n)) d = nth j (g (a + i)) d.
Proof.
  intros Hg. revert a i. induction n as [|n IH]; intros a i Hi Hj; [lia|].
  simpl. destruct i as [|i].
  - simpl. rewrite app_nth1 by (rewrite Hg; lia). now rewrite Nat.add_0_r.
  - rewrite app_nth2 by (rewrite Hg; simpl; lia).
    rewrite Hg. replace (S i * m + j - m) with (i * m + j) by (simpl; lia).
    rewrite IH by lia. f_equal. f_equal. lia.
Qed.

Lemma length_flat_map_seq (A : Type) (g : nat -> list A) (m n a : nat) :
  (forall k, length (g k) = m) -> length (flat_map g (seq a n)) = n * m.
Proof.
  intros Hg. revert a. induction n as [|n IH]; intros a; simpl; [reflexivity|].
  now rewrite length_app, Hg, IH.
Qed.

Lemma length_indices (s : list nat) : length (indices s) = numel s.
Proof.
  induction s as [|n s IH]; simpl; [reflexivity|].
  apply length_flat_map_seq. intros k. now rewrite length_map.
Qed.

Lemma in_range_nil_inv (idx : list nat) : in_range [] idx -> idx = [].
Proof. intros H. now inversion H. Qed.

Lemma in_range_cons_inv (n : nat) (s idx : list nat) :
  in_range (n :: s) idx ->
  exists i idx', idx = i :: idx' /\ i < n /\ in_range s idx'.
Proof. intros H. inversion H; subst. eauto. Qed.

Lemma in_range_length (s idx : list nat) : in_range s idx -> length idx = length s.
Proof. apply Forall2_length. Qed.

Lemma in_indices (s idx : list nat) : In idx (indices s) <-> in_range s idx.
Proof.
  revert idx. induction s as [|n s IH]; intros idx; simpl.
  - split.
    + intros [<-|[]]. constructor.
    + intros H. left. symmetry. now apply in_range_nil_inv.
  - rewrite in_flat_map. split.
    + intros (i & Hi & Hin). apply in_seq in Hi. apply in_map_iff in Hin.
      destruct Hin as (idx' & <- & Hin). constructor; [lia|]. now apply IH.
    + intros H. apply in_range_cons_inv in H. destruct H as (i & idx' & -> & Hi & H).
      exists i. split; [apply in_seq; lia|]. apply in_map. now apply IH.
Qed.

Lemma ravel_lt (s idx : list nat) : in_range s idx -> ravel s idx < numel s.
Proof.
  revert idx. induction s as [|n s IH]; intros idx H.
  - apply in_range_nil_inv in H. subst. simpl. lia.
  - apply in_range_cons_inv in H. destruct H as (i & idx' & -> & Hi & H).
    simpl. specialize (IH _ H). nia.
Qed.

Lemma nth_indices (s idx d : list nat) :
  in_range s idx -> nth (ravel s idx) (indices s) d = idx.
Proof.
  revert idx. induction s as [|n s IH]; intros idx H.
  - apply in_range_nil_inv in H. now subst.
  - apply in_range_cons_inv in H. destruct H as (i & idx' & -> & Hi & H).
    simpl. rewrite nth_flat_map_seq with (m := numel s); auto.
    + simpl. rewrite nth_indep with (d' := i :: d).
      * rewrite (map_nth (cons i)). now rewrite IH.
      * rewrite length_map, length_indices. now apply ravel_lt.
    + intros k. now rewrite length_map, length_indices.
    + now apply ravel_lt.
Qed.

Lemma flat_map_seq_blocks (m n a : nat) :
  flat_map (fun i => seq (i * m) m) (seq a n) = seq (a * m) (n * m).
Proof.
  revert a. induction n as [|n IH]; intros a; [reflexivity|].
  cbn [seq flat_map]. rewrite IH.
  replace (S a * m) with (a * m + m) by lia.
  replace (S n * m) with (m + n * m) by lia.
  now rewrite seq_app.
Qed.

Lemma map_add_seq (b a m : nat) :
  map (fun r => b + r) (seq a m) = seq (b + a) m.
Proof.
  revert a. induction m as [|m IH]; intros a; simpl; [reflexivity|].
  f_equal. rewrite IH. f_equal. lia.
Qed.

Lemma map_ravel_indices (s : list nat) :
  map (ravel s) (indices s) = seq 0 (numel s).
Proof.
  induction s as [|n s IH]; simpl; [reflexivity|].
  rewrite flat_map_concat_map, concat_map, map_map, <- flat_map_concat_map.
  rewrite flat_map_ext with (g := fun i => seq (i * numel s) (numel s)).
  - apply (flat_map_seq_blocks (numel s) n 0).
  - intros i. rewrite map_map. simpl.
    rewrite <- (map_map (ravel s) (fun r => i * numel s + r)), IH.
    rewrite map_add_seq. f_equal. lia.
Qed.

Lemma map_nth_seq_id (d : list R) (x : R) :
  map (fun k => nth k d x) (seq 0 (length d)) = d.
Proof.
  induction d as [|y d IH]; simpl; [reflexivity|].
  f_equal. rewrite <- seq_shift, map_map. exact IH.
Qed.

(** ** Tabulated tensors *)

Lemma tshape_tabulate (s : list nat) (f : list nat -> R) :
  tshape (tabulate s f) = s.
Proof. reflexivity. Qed.

Lemma wf_tabulate (s : list nat) (f : list nat -> R) : wf (tabulate s f).
Proof. unfold wf. simpl. now rewrite length_map, length_indices. Qed.

Lemma tget_tabulate (s : list nat) (f : list nat -> R) (idx : list nat) :
  in_range s idx -> tget (tabulate s f) idx = f idx.
Proof.
  intros H. unfold tget. simpl.
  rewrite nth_indep with (d' := f []).
  - rewrite (map_nth f). now rewrite nth_indices.
  - rewrite length_map, length_indices. now apply ravel_lt.
Qed.

Lemma tabulate_ext (s : list nat) (f g : list nat -> R) :
  (forall idx, in_range s idx -> f idx = g idx) -> tabulate s f = tabulate s g.
Proof.
  intros H. unfold tabulate. f_equal. apply map_ext_in.
  intros idx Hin. apply H. now apply in_indices.
Qed.

Lemma tabulate_tget (t : tensor) : wf t -> tabulate (tshape t) (tget t) = t.
Proof.
  destruct t as [s d]. unfold wf, tabulate, tget. simpl. intros H. f_equal.
  rewrite <- (map_map (ravel s) (fun k => nth k d 0%R)), map_ravel_indices, <- H.
  apply map_nth_seq_id.
Qed.

Lemma tmap_tabulate (h : R -> R) (s : list nat) (f : list nat -> R) :
  tmap h (tabulate s f) = tabulate s (fun idx => h (f idx)).
Proof. unfold tmap, tabulate. simpl. now rewrite map_map. Qed.

Lemma tget_tmap (h : R -> R) (t : tensor) (idx : list nat) :
  wf t -> in_range (tshape t) idx -> tget (tmap h t) idx = h (tget t idx).
Proof.
  intros Hwf Hin. rewrite <- (tabulate_tget t Hwf) at 1.
  rewrite tmap_tabulate. rewrite tget_tabulate; auto.
Qed.

Lemma wf_tmap (h : R -> R) (t : tensor) : wf t -> wf (tmap h t).
Proof. unfold wf, tmap. simpl. now rewrite length_map. Qed.

(** ** The trailing axis *)

Lemma last_dim_app (s : list nat) (n : nat) : last_dim (s ++ [n]) = Some n.
Proof. unfold last_dim. now rewrite rev_unit. Qed.

Lemma last_dim_inv (s : list nat) (n : nat) :
  last_dim s = Some n -> exists s', s = s' ++ [n].
Proof.
  unfold last_dim. intros H. destruct (rev s) as [|m r] eqn:E; [discriminate|].
  injection H as ->. exists (rev r).
  rewrite <- (rev_involutive s), E. reflexivity.
Qed.

Lemma last_dim_None (s : list nat) : last_dim s = None -> s = [].
Proof.
  unfold last_dim. destruct (rev s) eqn:E; [|discriminate]. intros _.
  now rewrite <- (rev_involutive s), E.
Qed.

Lemma in_range_app (s pre : list nat) (n c : nat) :
  in_range s pre -> c < n -> in_range (s ++ [n]) (pre ++ [c]).
Proof. intros H Hc. apply Forall2_app; [exact H|]. repeat constructor. exact Hc. Qed.

Lemma in_range_app_inv (s idx : list nat) (n : nat) :
  in_range (s ++ [n]) idx ->
  exists pre c, idx = pre ++ [c] /\ in_range s pre /\ c < n.
Proof.
  intros H. apply Forall2_app_inv_r in H.
  destruct H as (pre & l & Hpre & Hl & ->).
  inversion Hl as [|c ? ? ? Hc Hnil]; subst. inversion Hnil; subst.
  exists pre, c. auto.
Qed.

(** ** Broadcasting of equal shapes *)

Lemma bshape_rev_same (s : list nat) : bshape_rev s s = Some s.
Proof.
  induction s as [|n s IH]; simpl; [reflexivity|].
  now rewrite IH, Nat.eqb_refl.
Qed.

Lemma broadcast_shape_same (s : list nat) : broadcast_shape s s = Some s.
Proof.
  unfold broadcast_shape. rewrite bshape_rev_same. simpl.
  now rewrite rev_involutive.
Qed.

Lemma bindex_in_range (s idx : list nat) : in_range s idx -> bindex s idx = idx.
Proof.
  intros H. unfold bindex. rewrite (in_range_length _ _ H), Nat.sub_diag. simpl.
  induction H as [|i n idx s Hi H IH]; simpl; [reflexivity|].
  rewrite IH. destruct (Nat.eqb_spec n 1); [f_equal; lia|reflexivity].
Qed.

Lemma setitem_view_same (v : tensor) (s : list nat) :
  tshape v = s -> setitem_view v s = OK v.
Proof.
  intros H. unfold setitem_view. now destruct (list_eq_dec Nat.eq_dec (tshape v) s).
Qed.

Lemma bop_same (f : R -> R -> R) (a b : tensor) :
  tshape a = tshape b ->
  bop f a b = OK (tabulate (tshape a) (fun idx => f (tget a idx) (tget b idx))).
Proof.
  intros H. unfold bop. rewrite <- H, broadcast_shape_same. f_equal.
  apply tabulate_ext. intros idx Hin. now rewrite (bindex_in_range _ _ Hin).
Qed.

(** ** Reading and writing the trailing axis *)

Lemma select_last_eq (t : tensor) (s : list nat) (n k : nat) :
  tshape t = s ++ [n] -> k < n ->
  select_last k t = OK (tabulate s (fun idx => tget t (idx ++ [k]))).
Proof.
  intros Hs Hk. unfold select_last. rewrite Hs, last_dim_app.
  destruct (Nat.ltb_spec k n); [|lia]. now rewrite removelast_last.
Qed.

Lemma set_last_eq (t v : tensor) (s : list nat) (n k : nat) :
  tshape t = s ++ [n] -> k < n -> tshape v = s ->
  set_last k v t =
  OK (tabulate (s ++ [n]) (fun idx =>
        if last idx 0 =? k then tget v (removelast idx) else tget t idx)).
Proof.
  intros Hs Hk Hv. unfold set_last. rewrite Hs, last_dim_app.
  destruct (Nat.ltb_spec k n); [|lia]. rewrite removelast_last.
  rewrite (setitem_view_same v _ Hv). cbn [bind]. f_equal.
  apply tabulate_ext. intros idx Hin.
  apply in_range_app_inv in Hin. destruct Hin as (pre & c & -> & Hpre & Hc).
  rewrite removelast_last, Hv. now rewrite (bindex_in_range _ _ Hpre).
Qed.

(** ** The primitives, position by position *)

Lemma conj_eq (t : tensor) (s : list nat) (n : nat) :
  tshape t = s ++ [n] -> 1 < n ->
  conj t = OK (tabulate (s ++ [n]) (conj_values t)).
Proof.
  intros Hs Hn. unfold conj. rewrite (select_last_eq t s n 1 Hs Hn). cbn [bind].
  rewrite tmap_tabulate. rewrite (set_last_eq t _ s n 1 Hs Hn) by reflexivity.
  f_equal. apply tabulate_ext. intros idx Hin. unfold conj_values.
  apply in_range_app_inv in Hin. destruct Hin as (pre & c & -> & Hpre & Hc).
  rewrite last_last, removelast_last.
  destruct (Nat.eqb_spec c 1) as [->|]; [|reflexivity].
  now rewrite tget_tabulate.
Qed.

(** ** Conjugation *)

(** C9: for every complex tensor [z] (trailing axis of size 2),
    [conj (conj z)] succeeds and is [z] itself, position by position: [conj]
    multiplies the imaginary channel of a copy by -1 and leaves the real
    channel alone. *)
Theorem conj_conj (z : tensor) :
  wf z -> last_dim (tshape z) = Some 2 ->
  (z1 <- conj z ;; conj z1) = OK z.
Proof.
  intros Hwf Hlast. destruct (last_dim_inv _ _ Hlast) as [s Hs].
  rewrite (conj_eq z s 2 Hs) by lia. cbn [bind].
  rewrite (conj_eq _ s 2) by (reflexivity || lia).
  f_equal. rewrite <- (tabulate_tget z Hwf) at 2. rewrite Hs.
  apply tabulate_ext. intros idx Hin. unfold conj_values at 1.
  rewrite (tget_tabulate _ _ _ Hin). unfold conj_values.
  destruct (last idx 0 =? 1); [lra|reflexivity].
Qed.

Lemma conj_conj_witness : (z1 <- conj z_3_4j ;; conj z1) = OK z_3_4j.
Proof. apply conj_conj; reflexivity. Defined.

(** ** Shape checks *)

Lemma assert_complex_rejects (t : tensor) (n : nat) :
  last_dim (tshape t) = Some n -> n <> 2 ->
  assert_complex t = Error AssertionError.
Proof.
  intros H Hn. unfold assert_complex, trailing_is_2. rewrite H. cbn [bind].
  now destruct (Nat.eqb_spec n 2).
Qed.

Lemma assert_complex_accepts (t : tensor) :
  last_dim (tshape t) = Some 2 -> assert_complex t = OK tt.
Proof. intros H. unfold assert_complex, trailing_is_2. now rewrite H. Qed.

Lemma assert_complex_cases (u : tensor) :
  1 <= rank u ->
  assert_complex u = OK tt \/ assert_complex u = Error AssertionError.
Proof.
  intros Hr. destruct (last_dim (tshape u)) as [m|] eqn:E.
  - destruct (Nat.eq_dec m 2) as [->|Hm].
    + left. now apply assert_complex_accepts.
    + right. now apply assert_complex_rejects with m.
  - apply last_dim_None in E. unfold rank in Hr. rewrite E in Hr. simpl in Hr. lia.
Qed.

(** The unchecked primitive on a trailing axis of size 3. *)
Lemma conj_vec3 : conj vec3 = OK (mkTensor [3] [1; 2 * -1; 3]%R).
Proof. rewrite (conj_eq vec3 [] 3) by (reflexivity || lia). reflexivity. Qed.

(** [conj] receives a tensor whose trailing axis has size 3 and returns a
    result instead of a shape error. *)
Lemma conj_no_shape_error :
  last_dim (tshape vec3) = Some 3 /\
  conj vec3 <> Error AssertionError /\
  exists r, conj vec3 = OK r.
Proof.
  split; [reflexivity|]. rewrite conj_vec3. split; [discriminate|eauto].
Qed.

(** The operators that carry the assertion, [abs] and the forward functions
    of the differentiable multiply, divide, abs, abs-squared and exponential
    operators, fail with the assertion (shape) error whenever a complex
    argument has a trailing axis of a size other than 2. *)
Theorem checked_operators_shape_error (t : tensor) (n : nat) :
  last_dim (tshape t) = Some n -> n <> 2 ->
  abs t = Error AssertionError /\
  ComplexAbs_forward t = Error AssertionError /\
  ComplexAbs2_forward t = Error AssertionError /\
  ComplexExp_forward t = Error AssertionError /\
  (forall u, ComplexMul_forward t u = Error AssertionError) /\
  (forall u, 1 <= rank u -> ComplexMul_forward u t = Error AssertionError) /\
  (forall u, ComplexDiv_forward t u = Error AssertionError) /\
  (forall u, 1 <= rank u -> ComplexDiv_forward u t = Error AssertionError).
Proof.
  intros H Hn. pose proof (assert_complex_rejects t n H Hn) as Ht.
  unfold abs, ComplexAbs_forward, ComplexAbs2_forward, ComplexExp_forward,
    ComplexMul_forward, ComplexDiv_forward.
  rewrite Ht. cbn [bind]. repeat split; auto;
    intros u Hu; destruct (assert_complex_cases u Hu) as [-> | ->];
    cbn [bind]; try rewrite Ht; reflexivity.
Qed.

Lemma checked_operators_shape_error_witness :
  abs vec3 = Error AssertionError /\
  ComplexAbs_forward vec3 = Error AssertionError /\
  ComplexAbs2_forward vec3 = Error AssertionError /\
  ComplexExp_forward vec3 = Error AssertionError /\
  (forall u, ComplexMul_forward vec3 u = Error AssertionError) /\
  (forall u, 1 <= rank u -> ComplexMul_forward u vec3 = Error AssertionError) /\
  (forall u, ComplexDiv_forward vec3 u = Error AssertionError) /\
  (forall u, 1 <= rank u -> ComplexDiv_forward u vec3 = Error AssertionError).
Proof.
  apply (checked_operators_shape_error vec3 3); [reflexivity | lia].
Defined.

(** ** The complex exponential *)

Lemma bind_ret (A : Type) (r : result A) : (x <- r ;; OK x) = r.
Proof. now destruct r. Qed.

Lemma exp_eq (t : tensor) (s : list nat) (n : nat) :
  tshape t = s ++ [n] -> 1 < n ->
  exp t = OK (tabulate (s ++ [n]) (exp_values t)).
Proof.
  intros Hs Hn. unfold exp.
  rewrite (select_last_eq t s n 0 Hs) by lia. cbn [bind].
  rewrite (select_last_eq t s n 1 Hs Hn). cbn [bind].
  rewrite !tmap_tabulate.
  rewrite bop_same by reflexivity. cbn [bind tshape tabulate].
  rewrite (set_last_eq t _ s n 0 Hs) by (reflexivity || lia). cbn [bind].
  rewrite bop_same by reflexivity. cbn [bind tshape tabulate].
  rewrite (set_last_eq _ _ s n 1) by (reflexivity || lia).
  f_equal. apply tabulate_ext. intros idx Hin. unfold exp_values.
  pose proof Hin as Hin'.
  apply in_range_app_inv in Hin'. destruct Hin' as (pre & c & -> & Hpre & Hc).
  rewrite last_last, removelast_last.
  destruct (Nat.eqb_spec c 1) as [->|Hc1].
  - now rewrite !(tget_tabulate _ _ _ Hpre).
  - rewrite (tget_tabulate _ _ _ Hin). rewrite last_last, removelast_last.
    destruct (Nat.eqb_spec c 0) as [->|Hc0]; [|reflexivity].
    now rewrite !(tget_tabulate _ _ _ Hpre).
Qed.

Lemma complex_exp_eq (t : tensor) :
  last_dim (tshape t) = Some 2 -> complex_exp t = exp t.
Proof.
  intros H. unfold complex_exp, ComplexExp_forward.
  rewrite (assert_complex_accepts t H). cbn [bind].
  destruct (exp t); reflexivity.
Qed.

(** ** Single-slice propagation *)

(** C6: single-slice propagation over the distance 0 returns the field it was
    given, whatever the transforms and the kernel phase are: neither the
    transforms nor the kernel are used, so even transforms that always fail
    leave the result untouched. *)
Theorem SingleSlice_forward_zero_distance
  (torch_fft torch_ifft : tensor -> nat -> result tensor)
  (self : SingleSlicePropagation) (field_in : tensor) :
  SingleSlicePropagation_forward torch_fft torch_ifft self field_in 0 = OK field_in.
Proof.
  unfold SingleSlicePropagation_forward.
  destruct (Req_EM_T 0 0) as [_|Hne]; [reflexivity|]. now contradiction Hne.
Qed.

(** ** The sign convention of the defocus kernel *)

Lemma exp_k_half_pi :
  exp (tmap (Rmult (Rabs 1)) k_half_pi) = OK (mkTensor [1; 1; 2] [0; 1]%R).
Proof.
  rewrite (exp_eq _ [1; 1] 2) by (reflexivity || lia).
  unfold tabulate, exp_values, tget. cbn.
  rewrite Rabs_R1, !Rmult_1_l, exp_0, cos_PI2, sin_PI2.
  do 3 f_equal; [lra|f_equal; lra].
Qed.

Lemma Rlt_dec_true (a b : R) (A : Type) (x y : A) :
  (a < b)%R -> (if Rlt_dec a b then x else y) = x.
Proof. intros H. now destruct (Rlt_dec a b). Qed.

Lemma Rlt_dec_false (a b : R) (A : Type) (x y : A) :
  (b <= a)%R -> (if Rlt_dec a b then x else y) = y.
Proof. intros H. destruct (Rlt_dec a b); [lra|reflexivity]. Qed.

(** C1, as stated, fails: at the positive offset 1 the forward pass uses the
    exponential as it is, not its conjugate, and at the negative offset -1 it
    uses the conjugate. *)
Lemma Defocus_forward_positive_offset_not_conjugated :
  Defocus_forward_kernel k_half_pi 1 = OK (mkTensor [1; 1; 2] [0; 1]%R) /\
  (k <- exp (tmap (Rmult (Rabs 1)) k_half_pi) ;; conj k)
    = OK (mkTensor [1; 1; 2] [0; 1 * -1]%R) /\
  Defocus_forward_kernel k_half_pi 1
    <> (k <- exp (tmap (Rmult (Rabs 1)) k_half_pi) ;; conj k).
Proof.
  assert (H1 : Defocus_forward_kernel k_half_pi 1
               = OK (mkTensor [1; 1; 2] [0; 1]%R)).
  { unfold Defocus_forward_kernel. rewrite exp_k_half_pi. cbn [bind].
    apply Rlt_dec_true. lra. }
  assert (H2 : (k <- exp (tmap (Rmult (Rabs 1)) k_half_pi) ;; conj k)
               = OK (mkTensor [1; 1; 2] [0; 1 * -1]%R)).
  { rewrite exp_k_half_pi. cbn [bind].
    rewrite (conj_eq _ [1; 1] 2) by (reflexivity || lia). reflexivity. }
  repeat split; auto. rewrite H1, H2. intros H. injection H as H. lra.
Qed.

Lemma Defocus_forward_kernel_SingleSlice (kernel : tensor) (d : R) :
  last_dim (tshape kernel) = Some 2 ->
  Defocus_forward_kernel kernel d = SingleSlice_kernel kernel d.
Proof.
  intros H. unfold Defocus_forward_kernel, SingleSlice_kernel.
  rewrite complex_exp_eq by exact H. reflexivity.
Qed.

(** C1, amended: for every offset the forward pass builds
    [exp(|offset| * kernel)] and conjugates it exactly when the offset is not
    positive; a positive offset leaves it as it is.  This is the test of
    single-slice propagation, whose kernel it equals on a complex kernel. *)
Theorem Defocus_forward_kernel_convention (kernel : tensor) (d_pos d_nonpos : R) :
  (0 < d_pos)%R -> (d_nonpos <= 0)%R -> last_dim (tshape kernel) = Some 2 ->
  Defocus_forward_kernel kernel d_pos
    = exp (tmap (Rmult (Rabs d_pos)) kernel) /\
  Defocus_forward_kernel kernel d_nonpos
    = (k <- exp (tmap (Rmult (Rabs d_nonpos)) kernel) ;; conj k) /\
  Defocus_forward_kernel kernel d_pos = SingleSlice_kernel kernel d_pos /\
  Defocus_forward_kernel kernel d_nonpos = SingleSlice_kernel kernel d_nonpos.
Proof.
  intros Hpos Hneg Hk. repeat split.
  - unfold Defocus_forward_kernel.
    destruct (exp (tmap (Rmult (Rabs d_pos)) kernel)); cbn [bind]; [|reflexivity].
    now apply Rlt_dec_true.
  - unfold Defocus_forward_kernel.
    destruct (exp (tmap (Rmult (Rabs d_nonpos)) kernel)); cbn [bind]; [|reflexivity].
    now apply Rlt_dec_false.
  - now apply Defocus_forward_kernel_SingleSlice.
  - now apply Defocus_forward_kernel_SingleSlice.
Qed.

Lemma Defocus_forward_kernel_convention_witness :
  Defocus_forward_kernel k_half_pi 1
    = exp (tmap (Rmult (Rabs 1)) k_half_pi) /\
  Defocus_forward_kernel k_half_pi (-1)
    = (k <- exp (tmap (Rmult (Rabs (-1))) k_half_pi) ;; conj k) /\
  Defocus_forward_kernel k_half_pi 1 = SingleSlice_kernel k_half_pi 1 /\
  Defocus_forward_kernel k_half_pi (-1) = SingleSlice_kernel k_half_pi (-1).
Proof.
  apply Defocus_forward_kernel_convention; [lra | lra | reflexivity].
Defined.

(** ** Updating one position of a multi-index *)

Lemma nth_in_range (s idx : list nat) (d : nat) :
  in_range s idx -> d < length s -> nth d idx 0 < nth d s 0.
Proof.
  intros H. revert d. induction H as [|i n idx s Hi H IH]; intros d Hd.
  - simpl in Hd. lia.
  - destruct d as [|d]; simpl; [exact Hi|]. apply IH. simpl in Hd. lia.
Qed.

Lemma upd_nth_in_range (s idx : list nat) (d x : nat) :
  in_range s idx -> x < nth d s 0 -> in_range s (upd_nth d x idx).
Proof.
  intros H. revert d. induction H as [|i n idx s Hi H IH]; intros d Hx.
  - destruct d; constructor.
  - destruct d as [|d]; simpl in Hx |- *.
    + constructor; assumption.
    + constructor; [assumption|]. now apply IH.
Qed.

Lemma nth_upd_nth_same (l : list nat) (d x : nat) :
  d < length l -> nth d (upd_nth d x l) 0 = x.
Proof.
  revert d. induction l as [|y l IH]; intros d Hd; simpl in Hd; [lia|].
  destruct d as [|d]; simpl; [reflexivity|]. apply IH. lia.
Qed.

Lemma nth_upd_nth_other (l : list nat) (d1 d2 x : nat) :
  d1 <> d2 -> nth d1 (upd_nth d2 x l) 0 = nth d1 l 0.
Proof.
  revert d1 d2. induction l as [|y l IH]; intros d1 d2 Hd.
  - destruct d2; reflexivity.
  - destruct d1, d2; simpl; try reflexivity; try lia. apply IH. lia.
Qed.

Lemma upd_nth_twice (l : list nat) (d x y : nat) :
  upd_nth d x (upd_nth d y l) = upd_nth d x l.
Proof.
  revert d. induction l as [|z l IH]; intros d.
  - destruct d; reflexivity.
  - destruct d as [|d]; simpl; [reflexivity|]. now rewrite IH.
Qed.

Lemma upd_nth_comm (l : list nat) (d1 d2 x y : nat) :
  d1 <> d2 ->
  upd_nth d1 x (upd_nth d2 y l) = upd_nth d2 y (upd_nth d1 x l).
Proof.
  revert d1 d2. induction l as [|z l IH]; intros d1 d2 Hd.
  - destruct d1, d2; reflexivity.
  - destruct d1, d2; simpl; try reflexivity; try lia. f_equal. apply IH. lia.
Qed.

Lemma upd_nth_id (l : list nat) (d : nat) : upd_nth d (nth d l 0) l = l.
Proof.
  revert d. induction l as [|z l IH]; intros d.
  - destruct d; reflexivity.
  - destruct d as [|d]; simpl; [reflexivity|]. now rewrite IH.
Qed.

(** ** Circular rolls *)

Lemma roll_source_in_range (s idx : list nat) (a : Z) (d : nat) :
  in_range s idx -> d < length s -> in_range s (roll_source s a d idx).
Proof.
  intros H Hd. unfold roll_source. apply upd_nth_in_range; [exact H|].
  pose proof (nth_in_range s idx d H Hd) as Hlt.
  pose proof (Z.mod_pos_bound (Z.of_nat (nth d idx 0) - a) (Z.of_nat (nth d s 0))).
  lia.
Qed.

Lemma roll_source_comm (s idx : list nat) (a b : Z) (d1 d2 : nat) :
  in_range s idx -> d1 < length s -> d2 < length s ->
  roll_source s a d1 (roll_source s b d2 idx)
  = roll_source s b d2 (roll_source s a d1 idx).
Proof.
  intros H Hd1 Hd2. unfold roll_source.
  pose proof (in_range_length _ _ H) as Hlen.
  destruct (Nat.eq_dec d1 d2) as [->|Hne].
  - rewrite !nth_upd_nth_same by lia. rewrite !upd_nth_twice.
    pose proof (nth_in_range s idx d2 H Hd2) as Hlt.
    set (n := Z.of_nat (nth d2 s 0)) in *.
    set (i := Z.of_nat (nth d2 idx 0)) in *.
    assert (Hn : (0 < n)%Z) by lia.
    rewrite !Z2Nat.id by (apply Z.mod_pos_bound; exact Hn).
    rewrite !Zminus_mod_idemp_l. do 2 f_equal. f_equal. lia.
  - rewrite !nth_upd_nth_other by auto. now apply upd_nth_comm.
Qed.

Lemma roll_source_inverse (s idx : list nat) (h : Z) (d : nat) :
  in_range s idx -> d < length s ->
  roll_source s h d (roll_source s (- h) d idx) = idx.
Proof.
  intros H Hd. unfold roll_source.
  pose proof (in_range_length _ _ H) as Hlen.
  rewrite nth_upd_nth_same by lia. rewrite upd_nth_twice.
  pose proof (nth_in_range s idx d H Hd) as Hlt.
  set (n := Z.of_nat (nth d s 0)) in *.
  assert (Hn : (0 < n)%Z) by lia.
  rewrite Z2Nat.id by (apply Z.mod_pos_bound; exact Hn).
  rewrite Zminus_mod_idemp_l.
  set (i := nth d idx 0) in *.
  replace (Z.of_nat i - - h - h)%Z with (Z.of_nat i) by lia.
  rewrite Z.mod_small by lia. rewrite Nat2Z.id. apply upd_nth_id.
Qed.

Lemma tshape_roll (t : tensor) (a : Z) (d : nat) : tshape (roll t a d) = tshape t.
Proof. reflexivity. Qed.

Lemma rank_roll (t : tensor) (a : Z) (d : nat) : rank (roll t a d) = rank t.
Proof. reflexivity. Qed.

Lemma wf_roll (t : tensor) (a : Z) (d : nat) : wf (roll t a d).
Proof. apply wf_tabulate. Qed.

Lemma roll_roll (t : tensor) (a b : Z) (d1 d2 : nat) :
  d2 < rank t ->
  roll (roll t a d1) b d2
  = tabulate (tshape t) (fun idx =>
      tget t (roll_source (tshape t) a d1 (roll_source (tshape t) b d2 idx))).
Proof.
  intros Hd2. unfold roll at 1. rewrite tshape_roll.
  apply tabulate_ext. intros idx Hin. unfold roll.
  rewrite tget_tabulate; [reflexivity|]. now apply roll_source_in_range.
Qed.

Lemma roll_comm (t : tensor) (a b : Z) (d1 d2 : nat) :
  d1 < rank t -> d2 < rank t ->
  roll (roll t a d1) b d2 = roll (roll t b d2) a d1.
Proof.
  intros Hd1 Hd2. rewrite !roll_roll by assumption.
  apply tabulate_ext. intros idx Hin. f_equal. now apply roll_source_comm.
Qed.

Lemma roll_inverse (t : tensor) (h : Z) (d : nat) :
  wf t -> d < rank t -> roll (roll t h d) (- h) d = t.
Proof.
  intros Hwf Hd. rewrite roll_roll by assumption.
  transitivity (tabulate (tshape t) (tget t)); [|now apply tabulate_tget].
  apply tabulate_ext. intros idx Hin. f_equal. now apply roll_source_inverse.
Qed.

(** ** Shifts over a list of axes *)

Lemma norm_axis_valid (r : nat) (a : Z) :
  valid_axis r a -> exists ax, norm_axis r a = OK ax /\ ax < r.
Proof.
  unfold valid_axis, norm_axis. intros [Hlo Hhi].
  destruct (Z.leb_spec 0 a) as [Hpos|Hneg].
  - destruct (Z.ltb_spec a (Z.of_nat r)); [|lia]. simpl.
    exists (Z.to_nat a). split; [reflexivity|lia].
  - simpl. destruct (Z.leb_spec (- Z.of_nat r) a); [|lia].
    destruct (Z.ltb_spec a 0); [|lia]. simpl.
    exists (Z.to_nat (a + Z.of_nat r)). split; [reflexivity|lia].
Qed.

Lemma shift_axes_cons (f : nat -> Z) (t : tensor) (a : Z) (axes : list Z) (ax : nat) :
  norm_axis (rank t) a = OK ax ->
  shift_axes f t (a :: axes)
  = shift_axes f (roll t (f (nth ax (tshape t) 0)) ax) axes.
Proof. intros H. unfold shift_axes. cbn [for_each]. rewrite H. reflexivity. Qed.

Lemma shift_axes_total (f : nat -> Z) (axes : list Z) (t : tensor) :
  Forall (valid_axis (rank t)) axes -> wf t ->
  exists t', shift_axes f t axes = OK t' /\ tshape t' = tshape t /\ wf t'.
Proof.
  revert t. induction axes as [|a axes IH]; intros t Hv Hwf.
  - exists t. auto.
  - inversion Hv as [|? ? Ha Hrest]; subst.
    destruct (norm_axis_valid _ _ Ha) as (ax & Hax & Hlt).
    rewrite (shift_axes_cons f t a axes ax Hax).
    destruct (IH (roll t (f (nth ax (tshape t) 0)) ax)) as (t' & Ht' & Hs & Hwf').
    + now rewrite rank_roll.
    + apply wf_roll.
    + exists t'. rewrite Ht'. rewrite Hs, tshape_roll. auto.
Qed.

Lemma shift_axes_roll (f : nat -> Z) (axes : list Z) (t : tensor) (h : Z) (d : nat) :
  Forall (valid_axis (rank t)) axes -> d < rank t ->
  shift_axes f (roll t h d) axes = (r <- shift_axes f t axes ;; OK (roll r h d)).
Proof.
  revert t. induction axes as [|a axes IH]; intros t Hv Hd.
  - reflexivity.
  - inversion Hv as [|? ? Ha Hrest]; subst.
    destruct (norm_axis_valid _ _ Ha) as (ax & Hax & Hlt).
    rewrite (shift_axes_cons f (roll t h d) a axes ax) by (now rewrite rank_roll).
    rewrite (shift_axes_cons f t a axes ax Hax).
    rewrite tshape_roll. rewrite roll_comm by assumption.
    apply IH; now rewrite rank_roll.
Qed.

Lemma shift_axes_inverse (f g : nat -> Z) (axes : list Z) (t : tensor) :
  (forall n, g n = (- f n)%Z) ->
  wf t -> Forall (valid_axis (rank t)) axes ->
  (r <- shift_axes f t axes ;; shift_axes g r axes) = OK t.
Proof.
  intros Hfg. revert t. induction axes as [|a axes IH]; intros t Hwf Hv.
  - reflexivity.
  - inversion Hv as [|? ? Ha Hrest]; subst.
    destruct (norm_axis_valid _ _ Ha) as (ax & Hax & Hlt).
    rewrite (shift_axes_cons f t a axes ax Hax).
    set (n := nth ax (tshape t) 0). set (t1 := roll t (f n) ax).
    assert (Hv1 : Forall (valid_axis (rank t1)) axes) by (now unfold t1; rewrite rank_roll).
    destruct (shift_axes_total f axes t1 Hv1 (wf_roll _ _ _)) as (t' & Ht' & Hs & Hwf').
    specialize (IH t1 (wf_roll _ _ _) Hv1). rewrite Ht' in IH |- *. cbn [bind] in IH |- *.
    assert (Hr : rank t' = rank t) by (unfold rank; now rewrite Hs).
    rewrite (shift_axes_cons g t' a axes ax) by (now rewrite Hr).
    rewrite shift_axes_roll; [|now rewrite Hr|now rewrite Hr].
    rewrite IH. cbn [bind]. rewrite Hs. unfold t1. rewrite tshape_roll. fold n.
    rewrite Hfg. f_equal. now apply roll_inverse.
Qed.

Lemma fftshift_shift_axes (t : tensor) (axes : list Z) :
  fftshift t axes = shift_axes (fun n => Z.of_nat (n / 2)) t axes.
Proof. reflexivity. Qed.

Lemma ifftshift_shift_axes (t : tensor) (axes : list Z) :
  ifftshift t axes = shift_axes (fun n => (-1 * Z.of_nat (n / 2))%Z) t axes.
Proof. reflexivity. Qed.

(** [ifftshift] after [fftshift], and the converse, for axes of any length. *)
Lemma ifftshift_fftshift (t : tensor) (axes : list Z) :
  wf t -> Forall (valid_axis (rank t)) axes ->
  (r <- fftshift t axes ;; ifftshift r axes) = OK t.
Proof.
  intros Hwf Hv.
  apply (shift_axes_inverse (fun n => Z.of_nat (n / 2))
           (fun n => (-1 * Z.of_nat (n / 2))%Z)); auto; intros n; lia.
Qed.

Lemma fftshift_ifftshift (t : tensor) (axes : list Z) :
  wf t -> Forall (valid_axis (rank t)) axes ->
  (r <- ifftshift t axes ;; fftshift r axes) = OK t.
Proof.
  intros Hwf Hv.
  apply (shift_axes_inverse (fun n => (-1 * Z.of_nat (n / 2))%Z)
           (fun n => Z.of_nat (n / 2))); auto; intros n; lia.
Qed.

Example fftshift_vec3 : fftshift vec3 [0%Z] = OK (mkTensor [3] [3; 1; 2]%R).
Proof. reflexivity. Qed.

Example ifftshift_vec3 : ifftshift vec3 [0%Z] = OK (mkTensor [3] [2; 3; 1]%R).
Proof. reflexivity. Qed.

Example fftshift_m_2x3 :
  fftshift m_2x3 [0%Z; (-1)%Z] = OK (mkTensor [2; 3] [6; 4; 5; 3; 1; 2]%R).
Proof. reflexivity. Qed.

(** C8: for every tensor and every list of valid axes, [fftshift] followed by
    [ifftshift] over the same axes returns the tensor exactly; so does
    [ifftshift] followed by [fftshift] when the listed axes have even
    length. *)
Theorem fftshift_ifftshift_roundtrip (t : tensor) (axes : list Z) :
  wf t -> Forall (valid_axis (rank t)) axes ->
  (r <- fftshift t axes ;; ifftshift r axes) = OK t /\
  (even_axes t axes -> (r <- ifftshift t axes ;; fftshift r axes) = OK t).
Proof.
  intros Hwf Hv. split.
  - now apply ifftshift_fftshift.
  - intros _. now apply fftshift_ifftshift.
Qed.

Lemma fftshift_ifftshift_roundtrip_witness :
  (r <- fftshift m_2x4 [0%Z; (-1)%Z] ;; ifftshift r [0%Z; (-1)%Z]) = OK m_2x4 /\
  (r <- ifftshift m_2x4 [0%Z; (-1)%Z] ;; fftshift r [0%Z; (-1)%Z]) = OK m_2x4.
Proof.
  assert (Hwf : wf m_2x4) by reflexivity.
  assert (Hv : Forall (valid_axis (rank m_2x4)) [0%Z; (-1)%Z]).
  { repeat constructor; simpl; lia. }
  assert (He : even_axes m_2x4 [0%Z; (-1)%Z]).
  { intros a ax [<-|[<-|[]]] Hn; injection Hn as <-; reflexivity. }
  destruct (fftshift_ifftshift_roundtrip m_2x4 [0%Z; (-1)%Z] Hwf Hv) as [H1 H2].
  split; [exact H1 | exact (H2 He)].
Defined.

(** ** Complex multiplication of tensors of one shape *)

Lemma insert_nth_length (s : list nat) (x : nat) :
  insert_nth (length s) x s = s ++ [x].
Proof. induction s as [|y s IH]; simpl; [reflexivity|]. now rewrite IH. Qed.

Lemma remove_nth_length (pre : list nat) (c : nat) :
  remove_nth (length pre) (pre ++ [c]) = pre.
Proof. induction pre as [|y pre IH]; simpl; [reflexivity|]. now rewrite IH. Qed.

Lemma stack_last_eq (a b : tensor) (s : list nat) :
  tshape a = s -> tshape b = s ->
  stack_last a b
  = OK (tabulate (s ++ [2]) (fun idx =>
          if last idx 0 =? 0 then tget a (removelast idx)
          else tget b (removelast idx))).
Proof.
  intros Ha Hb. unfold stack_last, torch_stack, rank. rewrite Ha, Hb.
  rewrite Nat.leb_refl. destruct (list_eq_dec Nat.eq_dec s s); [|congruence].
  rewrite insert_nth_length. f_equal. apply tabulate_ext. intros idx Hin.
  apply in_range_app_inv in Hin. destruct Hin as (pre & c & -> & Hpre & Hc).
  rewrite <- (in_range_length _ _ Hpre).
  now rewrite nth_middle, remove_nth_length, last_last, removelast_last.
Qed.

Lemma multiply_same_eq (z1 z2 : tensor) (s : list nat) (n1 n2 : nat) :
  tshape z1 = s ++ [n1] -> tshape z2 = s ++ [n2] -> 1 < n1 -> 1 < n2 ->
  multiply_complex z1 z2 = OK (tabulate (s ++ [2]) (mul_values z1 z2)).
Proof.
  intros H1 H2 Hn1 Hn2. unfold multiply_complex.
  rewrite (select_last_eq z1 s n1 0 H1) by lia. cbn [bind].
  rewrite (select_last_eq z2 s n2 0 H2) by lia. cbn [bind].
  rewrite bop_same by reflexivity. cbn [bind tshape tabulate].
  rewrite (select_last_eq z1 s n1 1 H1) by lia. cbn [bind].
  rewrite (select_last_eq z2 s n2 1 H2) by lia. cbn [bind].
  rewrite bop_same by reflexivity. cbn [bind tshape tabulate].
  rewrite bop_same by reflexivity. cbn [bind tshape tabulate].
  rewrite bop_same by reflexivity. cbn [bind tshape tabulate].
  rewrite bop_same by reflexivity. cbn [bind tshape tabulate].
  rewrite bop_same by reflexivity. cbn [bind tshape tabulate].
  rewrite (stack_last_eq _ _ s) by reflexivity.
  f_equal. apply tabulate_ext. intros idx Hin. unfold mul_values.
  apply in_range_app_inv in Hin. destruct Hin as (pre & c & -> & Hpre & Hc).
  rewrite last_last, removelast_last.
  destruct (c =? 0); repeat rewrite (tget_tabulate _ _ _ Hpre); reflexivity.
Qed.

(** ** The gradient of the absolute value *)

Lemma angle_eq (z : tensor) (s : list nat) (n : nat) :
  tshape z = s ++ [n] -> 1 < n ->
  angle z = OK (tabulate s (fun pre =>
                  atan2 (tget z (pre ++ [1])) (tget z (pre ++ [0])))).
Proof.
  intros Hs Hn. unfold angle.
  rewrite (select_last_eq z s n 1 Hs Hn). cbn [bind].
  rewrite (select_last_eq z s n 0 Hs) by lia. cbn [bind].
  rewrite bop_same by reflexivity. cbn [tshape tabulate].
  f_equal. apply tabulate_ext. intros pre Hpre.
  now rewrite !(tget_tabulate _ _ _ Hpre).
Qed.

Lemma r2c_eq (g : tensor) :
  wf g ->
  r2c g = OK (tabulate (tshape g ++ [2]) (fun idx =>
                if last idx 0 =? 0 then tget g (removelast idx) else 0%R)).
Proof.
  intros Hwf. unfold r2c. rewrite (stack_last_eq _ _ (tshape g)) by reflexivity.
  f_equal. apply tabulate_ext. intros idx Hin.
  apply in_range_app_inv in Hin. destruct Hin as (pre & c & -> & Hpre & Hc).
  rewrite last_last, removelast_last.
  destruct (c =? 0); [reflexivity|]. unfold zeros_like.
  now rewrite tget_tmap.
Qed.

Lemma ComplexAbs_backward_values (z g : tensor) :
  wf g -> tshape z = tshape g ++ [2] ->
  ComplexAbs_backward z g = OK (tabulate (tshape z) (ComplexAbs_grad z g)).
Proof.
  intros Hwf Hz.
  unfold ComplexAbs_backward. fold (r2c g). rewrite (r2c_eq g Hwf). cbn [bind].
  rewrite (angle_eq z (tshape g) 2 Hz) by lia. cbn [bind].
  rewrite !tmap_tabulate.
  change (torch_stack ?a ?b (rank g)) with (stack_last a b).
  rewrite (stack_last_eq _ _ (tshape g)) by reflexivity. cbn [bind].
  rewrite (multiply_same_eq _ _ (tshape g) 2 2) by (reflexivity || lia).
  cbn [bind]. rewrite tmap_tabulate. rewrite Hz. f_equal.
  apply tabulate_ext. intros idx Hin.
  unfold mul_values, ComplexAbs_grad, cmul. cbn [fst snd].
  apply in_range_app_inv in Hin. destruct Hin as (pre & c & -> & Hpre & Hc).
  rewrite last_last, removelast_last.
  assert (H0 : in_range (tshape g ++ [2]) (pre ++ [0])) by (apply in_range_app; auto).
  assert (H1 : in_range (tshape g ++ [2]) (pre ++ [1])) by (apply in_range_app; auto).
  rewrite !(tget_tabulate _ _ _ H0), !(tget_tabulate _ _ _ H1).
  rewrite !last_last, !removelast_last. cbn [Nat.eqb].
  rewrite !(tget_tabulate _ _ _ Hpre).
  destruct (c =? 0); reflexivity.
Qed.

(** C4: for every complex tensor [z] and output gradient [g] (of the shape of
    [abs z]), the backward rule of the differentiable absolute value returns,
    at every position, [0.5 * (cos(angle z), sin(angle z))] complex-multiplied
    with [(g, 0)]: the embedding [r2c g] of [g] in the complex tensors. *)
Theorem ComplexAbs_backward_rule (z g : tensor) :
  wf g -> tshape z = tshape g ++ [2] ->
  ComplexAbs_backward z g = OK (tabulate (tshape z) (ComplexAbs_grad z g)) /\
  ComplexAbs_backward z g
  = (gc <- r2c g ;;
     phase <- angle z ;;
     unit <- torch_stack (tmap cos phase) (tmap sin phase) (rank g) ;;
     prod <- multiply_complex unit gc ;;
     OK (tmap (Rmult 0.5) prod)).
Proof.
  intros Hwf Hz. split; [now apply ComplexAbs_backward_values | reflexivity].
Qed.

Lemma ComplexAbs_backward_rule_witness :
  ComplexAbs_backward one_c one_r
    = OK (tabulate (tshape one_c) (ComplexAbs_grad one_c one_r)) /\
  ComplexAbs_backward one_c one_r
  = (gc <- r2c one_r ;;
     phase <- angle one_c ;;
     unit <- torch_stack (tmap cos phase) (tmap sin phase) (rank one_r) ;;
     prod <- multiply_complex unit gc ;;
     OK (tmap (Rmult 0.5) prod)).
Proof. apply ComplexAbs_backward_rule; reflexivity. Defined.

Lemma atan2_0_1 : atan2 0 1 = 0%R.
Proof.
  unfold atan2. rewrite Rlt_dec_true by lra.
  replace (0 / 1)%R with 0%R by lra. apply atan_0.
Qed.

(** At [z = 1 + 0j] with [g = 1] the rule gives [0.5 + 0j], half of the
    value [z / |z| * g = 1 + 0j]. *)
Example ComplexAbs_backward_half :
  ComplexAbs_backward one_c one_r = OK (mkTensor [1; 2] [0.5; 0]%R).
Proof.
  rewrite (ComplexAbs_backward_values one_c one_r eq_refl eq_refl).
  unfold tabulate, ComplexAbs_grad, cmul, tget. cbn.
  rewrite atan2_0_1, cos_0, sin_0. do 3 f_equal; [lra | f_equal; lra].
Qed.

(** ** The broadcast reduction of the binary backward rules *)

Lemma bind_assoc (A B C : Type) (r : result A) (f : A -> result B)
  (k : B -> result C) :
  (y <- (x <- r ;; f x) ;; k y) = (x <- r ;; y <- f x ;; k y).
Proof. now destruct r. Qed.

(** Summing over axis 0, position by position. *)
Lemma sum_axis0_eq (q : tensor) (n : nat) (s : list nat) :
  tshape q = n :: s ->
  sum_axis 0 q = OK (tabulate s (fun idx => rsum n (fun i => tget q (i :: idx)))).
Proof. intros H. unfold sum_axis, rank. rewrite H. reflexivity. Qed.


Lemma ComplexMul_backward_eq (input1 input2 g : tensor) :
  ComplexMul_backward (input1, input2) g =
  (grad_input1 <- ComplexMul_product input2 g ;;
   grad_input2 <- ComplexMul_product input1 g ;;
   if rank input2 <? rank input1 then
     grad_input2 <- sum_axis 0 grad_input2 ;; OK (grad_input1, grad_input2)
   else if rank input1 <? rank input2 then
     grad_input1 <- sum_axis 0 grad_input1 ;; OK (grad_input1, grad_input2)
   else OK (grad_input1, grad_input2)).
Proof.
  unfold ComplexMul_backward, ComplexMul_product.
  rewrite bind_assoc. destruct (conj input2); [|reflexivity]. cbn [bind].
  destruct (multiply_complex a g); [|reflexivity]. cbn [bind].
  now rewrite bind_assoc.
Qed.




(** The rule at work: [input1] of shape (2, 1, 2) holds [1 + 2j] and [3 + 4j],
    [input2] of shape (1, 2) holds [5 + 6j], and [grad_output] is all ones.
    The gradient of [input2] is [conj(1 + 2j) + conj(3 + 4j) = 4 - 6j], of the
    shape of [input2]. *)
Example ComplexMul_backward_reduces :
  exists g1 g2,
    ComplexMul_backward (pair_c, z_5_6j) ones_pair_c = OK (g1, g2) /\
    tshape g1 = [2; 1; 2] /\ tshape g2 = [1; 2] /\
    tget g2 [0; 0] = 4%R /\ tget g2 [0; 1] = (-6)%R.
Proof.
  do 2 eexists. split; [reflexivity|].
  repeat split; unfold tget; cbn; lra.
Qed.

(** ** The defocus stack: layout of the offset axis *)

Ltac range_inv H :=
  repeat match type of H with
  | in_range (_ :: _) _ =>
      let i := fresh "i" in
      let idx := fresh "idx" in
      let Hi := fresh "Hi" in
      apply in_range_cons_inv in H; destruct H as (i & idx & -> & Hi & H)
  | in_range [] ?l => apply in_range_nil_inv in H; subst l
  end.

Ltac range_solve := repeat (constructor; try assumption; try lia).

Lemma defocus_stack_eq (F : tensor) (H W D : nat) :
  tshape F = [H; W; 2] ->
  (f <- unsqueeze 2 F ;; f <- repeat_tensor [1; 1; D; 1] f ;; permute [2; 0; 1; 3] f)
  = OK (tabulate [D; H; W; 2] (fun idx => tget F (tl idx))).
Proof.
  intros HF. unfold unsqueeze, rank. rewrite HF.
  cbn [length Nat.leb bind insert_nth].
  unfold repeat_tensor, rank.
  cbn [tshape tabulate length Nat.ltb Nat.leb Nat.sub repeat app combine map
       fst snd bind].
  unfold permute, rank.
  cbn [tshape tabulate length map is_permutation Nat.eqb andb forallb seq
       existsb orb nth].
  rewrite (Nat.mul_1_r D), !Nat.mul_1_l.
  f_equal. apply tabulate_ext. intros idx Hin. range_inv Hin.
  cbn [index_of Nat.eqb nth tl].
  rewrite tget_tabulate by range_solve.
  cbn [skipn combine map fst snd].
  rewrite tget_tabulate.
  - cbn [remove_nth]. rewrite !Nat.mod_small by lia. reflexivity.
  - rewrite Nat.mod_1_r, !Nat.mod_small by lia. range_solve.
Qed.

Lemma defocus_unstack_eq (T : tensor) (H W D : nat) :
  tshape T = [D; H; W; 2] ->
  permute [1; 2; 0; 3] T
  = OK (tabulate [H; W; D; 2] (fun idx =>
          tget T [nth 2 idx 0; nth 0 idx 0; nth 1 idx 0; nth 3 idx 0])).
Proof.
  intros HT. unfold permute, rank. rewrite HT. reflexivity.
Qed.

Lemma select_axis0_eq (t : tensor) (n : nat) (s : list nat) (i : nat) :
  tshape t = n :: s -> i < n ->
  select_axis 0 i t = OK (tabulate s (fun idx => tget t (i :: idx))).
Proof.
  intros Ht Hi. unfold select_axis, rank. rewrite Ht. cbn [length nth].
  destruct (Nat.ltb_spec i n); [reflexivity|lia].
Qed.

Lemma assign_first_eq (t v : tensor) (n : nat) (s : list nat) (i : nat) :
  tshape t = n :: s -> i < n -> tshape v = s ->
  assign_first i v t
  = OK (tabulate (n :: s) (fun idx =>
          if hd 0 idx =? i then tget v (tl idx) else tget t idx)).
Proof.
  intros Ht Hi Hv. unfold assign_first. rewrite Ht.
  destruct (Nat.ltb_spec i n); [|lia].
  rewrite (setitem_view_same v s Hv). cbn [bind]. f_equal.
  apply tabulate_ext. intros idx Hin. range_inv Hin. cbn [hd tl].
  rewrite Hv. now rewrite (bindex_in_range _ _ Hin).
Qed.

(** ** The defocus stack: the kernel of one offset *)

Lemma Defocus_forward_kernel_shape (kernel : tensor) (s : list nat) (d : R) :
  tshape kernel = s ++ [2] ->
  exists kt, Defocus_forward_kernel kernel d = OK kt /\ tshape kt = s ++ [2].
Proof.
  intros Hk. unfold Defocus_forward_kernel.
  rewrite (exp_eq _ s 2) by (exact Hk || lia). cbn [bind].
  destruct (Rlt_dec 0 d).
  - eexists. split; reflexivity.
  - rewrite (conj_eq _ s 2) by (reflexivity || lia). eexists. split; reflexivity.
Qed.

Lemma Defocus_forward_kernel_zero (kernel : tensor) (s : list nat) :
  wf kernel -> tshape kernel = s ++ [2] ->
  Defocus_forward_kernel kernel 0 = OK (tabulate (s ++ [2]) unit_kernel_values).
Proof.
  intros Hwf Hk. unfold Defocus_forward_kernel.
  rewrite (exp_eq _ s 2) by (exact Hk || lia). cbn [bind].
  rewrite Rlt_dec_false by lra.
  rewrite (conj_eq _ s 2) by (reflexivity || lia). f_equal.
  apply tabulate_ext. intros idx Hin. unfold conj_values, unit_kernel_values.
  rewrite (tget_tabulate _ _ _ Hin). unfold exp_values.
  apply in_range_app_inv in Hin. destruct Hin as (pre & c & -> & Hpre & Hc).
  rewrite last_last, removelast_last.
  assert (H0 : in_range (tshape kernel) (pre ++ [0])) by (rewrite Hk; apply in_range_app; auto; lia).
  assert (H1 : in_range (tshape kernel) (pre ++ [1])) by (rewrite Hk; apply in_range_app; auto; lia).
  rewrite !(tget_tmap _ _ _ Hwf H0), !(tget_tmap _ _ _ Hwf H1).
  rewrite Rabs_R0, !Rmult_0_l, exp_0, cos_0, sin_0.
  destruct (Nat.eqb_spec c 1) as [->|Hc1]; cbn [Nat.eqb].
  - lra.
  - destruct (Nat.eqb_spec c 0); [lra|lia].
Qed.

(** ** The defocus stack: the loop over the offsets *)

Lemma for_each_invariant (A S : Type) (P : S -> Prop) (xs : list A)
  (body : A -> S -> result S) (s0 : S) :
  (forall x s, In x xs -> P s -> exists s', body x s = OK s' /\ P s') ->
  P s0 -> exists s', for_each xs body s0 = OK s' /\ P s'.
Proof.
  revert s0. induction xs as [|x xs IH]; intros s0 Hbody H0.
  - exists s0. auto.
  - destruct (Hbody x s0 (or_introl eq_refl) H0) as (s1 & H1 & HP1).
    cbn [for_each]. rewrite H1. cbn [bind].
    apply IH; [|exact HP1]. intros y s Hy. apply Hbody. now right.
Qed.

Lemma Defocus_forward_step_shape (kernel : tensor) (dl : defocus_list_t)
  (H W D i : nat) (T : tensor) :
  tshape kernel = [H; W; 2] -> tshape T = [D; H; W; 2] -> i < D ->
  exists T', Defocus_forward_step kernel dl i T = OK T' /\
             tshape T' = [D; H; W; 2] /\ wf T'.
Proof.
  intros Hk HT Hi. unfold Defocus_forward_step.
  destruct (Defocus_forward_kernel_shape kernel [H; W] (nth i (offsets dl) 0%R) Hk)
    as (kt & -> & Hkt). cbn [bind].
  rewrite (select_axis0_eq T D [H; W; 2] i HT Hi). cbn [bind].
  rewrite (multiply_same_eq _ kt [H; W] 2 2) by (reflexivity || assumption || lia).
  cbn [bind].
  rewrite (assign_first_eq T _ D [H; W; 2] i HT Hi) by reflexivity.
  eexists. split; [reflexivity|]. split; [reflexivity|apply wf_tabulate].
Qed.

Lemma Defocus_forward_step_zero (kernel : tensor) (dl : defocus_list_t)
  (H W : nat) (T : tensor) :
  wf kernel -> tshape kernel = [H; W; 2] ->
  wf T -> tshape T = [1; H; W; 2] -> nth 0 (offsets dl) 0%R = 0%R ->
  Defocus_forward_step kernel dl 0 T = OK T.
Proof.
  intros Hwk Hk HwT HT Hd. unfold Defocus_forward_step. rewrite Hd.
  rewrite (Defocus_forward_kernel_zero kernel [H; W] Hwk Hk). cbn [bind].
  rewrite (select_axis0_eq T 1 [H; W; 2] 0 HT) by lia. cbn [bind].
  rewrite (multiply_same_eq _ _ [H; W] 2 2) by (reflexivity || lia). cbn [bind].
  rewrite (assign_first_eq T _ 1 [H; W; 2] 0 HT) by (reflexivity || lia).
  f_equal. transitivity (tabulate (tshape T) (tget T)); [|now apply tabulate_tget].
  rewrite HT. apply tabulate_ext. intros idx Hin. pose proof Hin as Hin'.
  range_inv Hin'. cbn [hd tl].
  assert (i = 0) by lia. subst i. cbn [Nat.eqb].
  rewrite tget_tabulate by range_solve.
  unfold mul_values. cbn [removelast last app].
  rewrite !(tget_tabulate [H; W; 2]) by range_solve.
  unfold unit_kernel_values. cbn [last Nat.eqb].
  destruct i2 as [|[|c]]; cbn [Nat.eqb]; [lra | lra | lia].
Qed.

(** A tensor with an axis of size 1 inserted stores the same values. *)
Lemma map_remove_nth_indices (k : nat) (s : list nat) :
  k <= length s ->
  map (remove_nth k) (indices (insert_nth k 1 s)) = indices s.
Proof.
  revert s. induction k as [|k IH]; intros s Hk.
  - cbn [insert_nth indices seq flat_map]. rewrite app_nil_r, map_map.
    cbn [remove_nth]. apply map_id.
  - destruct s as [|n s]; [simpl in Hk; lia|].
    cbn [insert_nth indices].
    rewrite flat_map_concat_map, concat_map, map_map, <- flat_map_concat_map.
    apply flat_map_ext. intros i. rewrite map_map. cbn [remove_nth].
    rewrite <- (map_map (remove_nth k) (cons i)). rewrite IH; [reflexivity|].
    simpl in Hk. lia.
Qed.

Lemma unsqueezed_data (k : nat) (t : tensor) :
  wf t -> k <= rank t ->
  tabulate (insert_nth k 1 (tshape t)) (fun idx => tget t (remove_nth k idx))
  = mkTensor (insert_nth k 1 (tshape t)) (tdata t).
Proof.
  intros Hwf Hk. unfold tabulate. f_equal.
  rewrite <- (map_map (remove_nth k) (tget t)).
  rewrite (map_remove_nth_indices k (tshape t) Hk).
  exact (f_equal tdata (tabulate_tget t Hwf)).
Qed.

(** ** The defocus stack: forward pass *)

Lemma fft_domain_stack (field : tensor) (H W D : nat) (T : tensor) :
  fft_domain 2 field -> tshape field = [H; W; 2] -> 0 < D ->
  wf T -> tshape T = [D; H; W; 2] -> fft_domain 2 T.
Proof.
  intros (_ & _ & _ & _ & Hpos) Hs HD HwT HT. rewrite Hs in Hpos.
  unfold fft_domain, rank. rewrite HT.
  split; [exact HwT|]. split; [reflexivity|]. split; [lia|].
  split; [simpl; lia|].
  inversion Hpos as [|? ? HH Hpos']; subst.
  inversion Hpos' as [|? ? HW _]; subst.
  repeat constructor; assumption.
Qed.

Section Laws.

Variables torch_fft torch_ifft : tensor -> nat -> result tensor.
Hypothesis transforms : fourier_pair torch_fft torch_ifft.

(** The forward pass succeeds on every non-empty list of offsets. *)
Lemma Defocus_forward_total (field kernel : tensor) (H W : nat)
  (dl : defocus_list_t) :
  fft_domain 2 field -> tshape field = [H; W; 2] ->
  tshape kernel = [H; W; 2] -> offsets dl <> [] ->
  exists out F,
    Defocus_forward torch_fft torch_ifft field kernel dl
    = OK (out, (kernel, F, dl)) /\
    tshape out = [H; W; length (offsets dl); 2].
Proof.
  intros Hdom Hs Hk Hne.
  destruct (fft_total transforms 2 field Hdom) as (F & HF & HsF & HwF).
  rewrite Hs in HsF.
  set (D := length (offsets dl)).
  assert (HD : 0 < D) by (unfold D; destruct (offsets dl); [congruence|simpl; lia]).
  pose proof (defocus_stack_eq F H W D HsF) as Hstack.
  unfold Defocus_forward. rewrite HF. cbn [bind]. fold D.
  destruct (unsqueeze 2 F) as [u|]; [|discriminate]. cbn [bind] in Hstack |- *.
  destruct (repeat_tensor [1; 1; D; 1] u) as [r|]; [|discriminate].
  cbn [bind] in Hstack |- *. rewrite Hstack. cbn [bind].
  destruct (for_each_invariant nat tensor (fun T => tshape T = [D; H; W; 2] /\ wf T)
              (seq 0 D) (Defocus_forward_step kernel dl)
              (tabulate [D; H; W; 2] (fun idx => tget F (tl idx))))
    as (T & HT & HsT & HwT).
  { intros i T Hi [HsT _]. apply in_seq in Hi.
    apply Defocus_forward_step_shape; auto; lia. }
  { split; [reflexivity|apply wf_tabulate]. }
  rewrite HT. cbn [bind].
  destruct (ifft_total transforms 2 T (fft_domain_stack field H W D T Hdom Hs HD HwT HsT))
    as (T' & HT' & HsT' & HwT').
  rewrite HT'. cbn [bind]. rewrite HsT in HsT'.
  rewrite (defocus_unstack_eq T' H W D HsT'). cbn [bind].
  eexists. eexists. split; reflexivity.
Qed.

(** With the single offset 0 the output stores the values of the field. *)
Lemma Defocus_forward_zero (field kernel : tensor) (H W : nat)
  (dl : defocus_list_t) :
  fft_domain 2 field -> tshape field = [H; W; 2] ->
  wf kernel -> tshape kernel = [H; W; 2] -> offsets dl = [0%R] ->
  exists F,
    torch_fft field 2 = OK F /\
    Defocus_forward torch_fft torch_ifft field kernel dl
    = OK (mkTensor [H; W; 1; 2] (tdata field), (kernel, F, dl)).
Proof.
  intros Hdom Hs Hwk Hk Hdl.
  destruct (fft_total transforms 2 field Hdom) as (F & HF & HsF & HwF).
  rewrite Hs in HsF. exists F. split; [exact HF|].
  pose proof (defocus_stack_eq F H W 1 HsF) as Hstack.
  unfold Defocus_forward. rewrite HF, Hdl. cbn [bind length].
  destruct (unsqueeze 2 F) as [u|]; [|discriminate]. cbn [bind] in Hstack |- *.
  destruct (repeat_tensor [1; 1; 1; 1] u) as [r|]; [|discriminate].
  cbn [bind] in Hstack |- *. rewrite Hstack. cbn [bind seq for_each].
  set (T := tabulate [1; H; W; 2] (fun idx => tget F (tl idx))).
  rewrite (Defocus_forward_step_zero kernel dl H W T Hwk Hk (wf_tabulate _ _) eq_refl)
    by (now rewrite Hdl).
  cbn [bind].
  assert (HdT : fft_domain 2 T).
  { apply (fft_domain_stack field H W 1 T Hdom Hs); auto. apply wf_tabulate. }
  destruct (ifft_total transforms 2 T HdT) as (T' & HT' & HsT' & HwT').
  change (tshape T) with [1; H; W; 2] in HsT'.
  assert (Hb : (r <- torch_ifft T 2 ;; select_axis 0 0 r)
               = (s <- select_axis 0 0 T ;; torch_ifft s 2)).
  { apply (ifft_batch transforms 2 T 0 HdT); unfold rank, T; simpl; lia. }
  rewrite HT' in Hb. cbn [bind] in Hb.
  rewrite (select_axis0_eq T 1 [H; W; 2] 0 eq_refl) in Hb by lia.
  rewrite (select_axis0_eq T' 1 [H; W; 2] 0 HsT') in Hb by lia.
  cbn [bind] in Hb.
  assert (HTF : tabulate [H; W; 2] (fun idx => tget T (0 :: idx)) = F).
  { transitivity (tabulate (tshape F) (tget F)); [|now apply tabulate_tget].
    rewrite HsF. apply tabulate_ext. intros idx Hin. unfold T.
    rewrite tget_tabulate; [reflexivity|]. constructor; [lia|exact Hin]. }
  rewrite HTF, (ifft_fft transforms 2 field F Hdom HF) in Hb.
  injection Hb as Hb.
  rewrite HT'. cbn [bind].
  rewrite (defocus_unstack_eq T' H W 1 HsT'). cbn [bind]. do 2 f_equal.
  assert (Hw : wf field) by apply Hdom.
  pose proof (unsqueezed_data 2 field Hw) as Hu. rewrite Hs in Hu.
  cbn [insert_nth] in Hu. rewrite <- Hu by (unfold rank; rewrite Hs; simpl; lia).
  apply tabulate_ext. intros idx Hin. range_inv Hin.
  assert (i1 = 0) by lia. subst i1. cbn [nth remove_nth].
  rewrite <- Hb. rewrite tget_tabulate by range_solve. reflexivity.
Qed.


Lemma Defocus_backward_PyList (kernel F : tensor) (l : list R) (g : tensor) :
  Defocus_backward torch_fft torch_ifft (kernel, F, PyList l) g
  = Error AttributeError.
Proof. reflexivity. Qed.

(** C7: for every field and every kernel of the field's shape, the forward
    pass of the defocus stack operator with [defocus_list = [0.0]] returns
    one output plane that stores exactly the values of the input field. *)
Theorem Defocus_forward_zero_identity (field kernel : tensor) (H W : nat) :
  fft_domain 2 field -> tshape field = [H; W; 2] ->
  wf kernel -> tshape kernel = [H; W; 2] ->
  exists out ctx,
    Defocus_forward torch_fft torch_ifft field kernel (PyList [0%R])
    = OK (out, ctx) /\
    tshape out = [H; W; 1; 2] /\ tdata out = tdata field.
Proof.
  intros Hdom Hs Hwk Hk.
  destruct (Defocus_forward_zero field kernel H W (PyList [0%R]) Hdom Hs Hwk Hk eq_refl)
    as (F & _ & HF).
  eexists. eexists. split; [exact HF|]. split; reflexivity.
Qed.

(** C10: with a Python list of offsets (the default [[0.0]] included) the
    forward pass succeeds and every backward pass on its saved context
    fails with an attribute error, at [defocus_list.clone()]; a backward
    pass that returns gradients had its offsets in a tensor. *)
Theorem Defocus_backward_needs_tensor (field kernel : tensor) (H W : nat)
  (l : list R) :
  fft_domain 2 field -> tshape field = [H; W; 2] ->
  tshape kernel = [H; W; 2] -> l <> [] ->
  (exists out ctx,
     Defocus_forward torch_fft torch_ifft field kernel (PyList l) = OK (out, ctx) /\
     forall g, Defocus_backward torch_fft torch_ifft ctx g = Error AttributeError) /\
  (exists out ctx,
     Defocus_forward torch_fft torch_ifft field kernel default_defocus_list
     = OK (out, ctx) /\
     forall g, Defocus_backward torch_fft torch_ifft ctx g = Error AttributeError) /\
  (forall k F dl g grads,
     Defocus_backward torch_fft torch_ifft (k, F, dl) g = OK grads ->
     exists offs, dl = TorchTensor offs).
Proof.
  intros Hdom Hs Hk Hl. split; [|split].
  - destruct (Defocus_forward_total field kernel H W (PyList l) Hdom Hs Hk Hl)
      as (out & F & HF & _).
    exists out, (kernel, F, PyList l). split; [exact HF|].
    intros g. apply Defocus_backward_PyList.
  - destruct (Defocus_forward_total field kernel H W default_defocus_list Hdom Hs Hk)
      as (out & F & HF & _); [discriminate|].
    exists out, (kernel, F, default_defocus_list). split; [exact HF|].
    intros g. apply Defocus_backward_PyList.
  - intros k F dl g grads Hb. destruct dl as [l'|offs].
    + rewrite Defocus_backward_PyList in Hb. discriminate.
    + now exists offs.
Qed.

End Laws.

(** ** Finite sums of reals *)

Lemma rsum_S (n : nat) (f : nat -> R) : rsum (S n) f = (rsum n f + f n)%R.
Proof.
  unfold rsum. rewrite seq_S, map_app, fold_right_app. cbn [map fold_right plus].
  generalize (map f (seq 0 n)) as l. induction l as [|x l IH]; simpl; [lra|].
  rewrite IH. lra.
Qed.

Lemma rsum_0 (f : nat -> R) : rsum 0 f = 0%R.
Proof. reflexivity. Qed.

Lemma rsum_ext (n : nat) (f g : nat -> R) :
  (forall i, i < n -> f i = g i) -> rsum n f = rsum n g.
Proof.
  induction n as [|n IH]; intros H; [reflexivity|].
  rewrite !rsum_S, IH by (intros; apply H; lia). now rewrite H by lia.
Qed.

Lemma rsum_plus (n : nat) (f g : nat -> R) :
  rsum n (fun i => f i + g i)%R = (rsum n f + rsum n g)%R.
Proof.
  induction n as [|n IH]; [rewrite !rsum_0; lra|]. rewrite !rsum_S, IH. lra.
Qed.

Lemma rsum_minus (n : nat) (f g : nat -> R) :
  rsum n (fun i => f i - g i)%R = (rsum n f - rsum n g)%R.
Proof.
  induction n as [|n IH]; [rewrite !rsum_0; lra|]. rewrite !rsum_S, IH. lra.
Qed.

Lemma rsum_mult_r (n : nat) (f : nat -> R) (c : R) :
  (rsum n f * c)%R = rsum n (fun i => f i * c)%R.
Proof.
  induction n as [|n IH]; [rewrite !rsum_0; lra|]. rewrite !rsum_S, <- IH. lra.
Qed.

Lemma rsum_mult_l (n : nat) (f : nat -> R) (c : R) :
  (c * rsum n f)%R = rsum n (fun i => c * f i)%R.
Proof.
  induction n as [|n IH]; [rewrite !rsum_0; lra|]. rewrite !rsum_S, <- IH. lra.
Qed.

Lemma rsum_zero (n : nat) : rsum n (fun _ => 0%R) = 0%R.
Proof. induction n as [|n IH]; [reflexivity|]. rewrite rsum_S, IH. lra. Qed.

Lemma rsum_swap (n m : nat) (f : nat -> nat -> R) :
  rsum n (fun i => rsum m (fun j => f i j))
  = rsum m (fun j => rsum n (fun i => f i j)).
Proof.
  induction n as [|n IH].
  - rewrite rsum_0. symmetry. apply rsum_zero.
  - rewrite rsum_S, IH, <- rsum_plus. apply rsum_ext. intros j _.
    now rewrite rsum_S.
Qed.

Lemma rsum_delta (n k : nat) (a : nat -> R) :
  k < n -> rsum n (fun j => if j =? k then a j else 0%R) = a k.
Proof.
  induction n as [|n IH]; intros Hk; [lia|]. rewrite rsum_S.
  destruct (Nat.eq_dec k n) as [->|Hne].
  - rewrite Nat.eqb_refl.
    rewrite rsum_ext with (g := fun _ => 0%R).
    + rewrite rsum_zero. lra.
    + intros i Hi. destruct (Nat.eqb_spec i n); [lia|reflexivity].
  - rewrite IH by lia. destruct (Nat.eqb_spec n k); [lia|lra].
Qed.

(** ** Roots of unity *)

Lemma geometric_cos_sin (theta : R) (n : nat) :
  ((1 - cos theta) * rsum n (fun m => cos (INR m * theta))
   + sin theta * rsum n (fun m => sin (INR m * theta))
   = 1 - cos (INR n * theta))%R /\
  ((1 - cos theta) * rsum n (fun m => sin (INR m * theta))
   - sin theta * rsum n (fun m => cos (INR m * theta))
   = - sin (INR n * theta))%R.
Proof.
  induction n as [|n [IHc IHs]].
  - rewrite !rsum_0. simpl INR. rewrite Rmult_0_l, cos_0, sin_0. split; lra.
  - rewrite !rsum_S, S_INR.
    replace ((INR n + 1) * theta)%R with (INR n * theta + theta)%R by lra.
    rewrite cos_plus, sin_plus. split; nra.
Qed.

Lemma cos_sin_2PI_nat (k : nat) :
  cos (2 * PI * INR k) = 1%R /\ sin (2 * PI * INR k) = 0%R.
Proof.
  replace (2 * PI * INR k)%R with (0 + 2 * INR k * PI)%R by lra.
  rewrite cos_period, sin_period, cos_0, sin_0. auto.
Qed.

Lemma cos_sin_2PI_diff (k j : nat) :
  cos (2 * PI * (INR k - INR j)) = 1%R /\ sin (2 * PI * (INR k - INR j)) = 0%R.
Proof.
  destruct (cos_sin_2PI_nat k) as [Hck Hsk].
  destruct (cos_sin_2PI_nat j) as [Hcj Hsj].
  replace (2 * PI * (INR k - INR j))%R with (2 * PI * INR k - 2 * PI * INR j)%R by lra.
  rewrite cos_minus, sin_minus, Hck, Hsk, Hcj, Hsj. split; lra.
Qed.

Lemma cos_lt_1 (x : R) : (0 < x < 2 * PI)%R -> (cos x < 1)%R.
Proof.
  intros [H0 H1].
  replace x with (2 * (x / 2))%R by lra. rewrite cos_2a_sin.
  assert (Hs : (0 < sin (x / 2))%R) by (apply sin_gt_0; lra).
  nra.
Qed.

Lemma roots_of_unity_sum (n k j : nat) :
  k < n -> j < n ->
  let beta := (2 * PI * (INR k - INR j) / INR n)%R in
  rsum n (fun m => cos (INR m * beta)) = (if j =? k then INR n else 0%R) /\
  rsum n (fun m => sin (INR m * beta)) = 0%R.
Proof.
  intros Hk Hj beta.
  assert (Hn : (0 < INR n)%R) by (apply lt_0_INR; lia).
  destruct (Nat.eqb_spec j k) as [->|Hne].
  - assert (Hb : beta = 0%R) by (unfold beta; field; lra).
    rewrite Hb. split.
    + rewrite rsum_ext with (g := fun _ => 1%R)
        by (intros; now rewrite Rmult_0_r, cos_0).
      clear. induction n as [|n IH]; [reflexivity|]. rewrite rsum_S, IH, S_INR. lra.
    + rewrite rsum_ext with (g := fun _ => 0%R)
        by (intros; now rewrite Rmult_0_r, sin_0).
      apply rsum_zero.
  - destruct (geometric_cos_sin beta n) as [Hc Hs].
    assert (Hnb : (INR n * beta = 2 * PI * (INR k - INR j))%R)
      by (unfold beta; field; lra).
    destruct (cos_sin_2PI_diff k j) as [Hc1 Hs1].
    rewrite Hnb, Hc1 in Hc. rewrite Hnb, Hs1 in Hs.
    assert (Hlt : (cos beta < 1)%R).
    { assert (Hkj : (INR k <> INR j)%R) by (intros E; apply INR_eq in E; lia).
      assert (HkR : (0 <= INR k < INR n)%R)
        by (split; [apply pos_INR|apply lt_INR; lia]).
      assert (HjR : (0 <= INR j < INR n)%R)
        by (split; [apply pos_INR|apply lt_INR; lia]).
      pose proof PI_RGT_0 as Hpi.
      assert (Hfrac : (-1 < (INR k - INR j) / INR n < 1)%R).
      { split.
        - apply Rmult_lt_reg_r with (INR n); [lra|].
          unfold Rdiv. rewrite Rmult_assoc, Rinv_l by lra. lra.
        - apply Rmult_lt_reg_r with (INR n); [lra|].
          unfold Rdiv. rewrite Rmult_assoc, Rinv_l by lra. lra. }
      assert (Hfrac0 : ((INR k - INR j) / INR n <> 0)%R).
      { intros E. apply Hkj. apply (f_equal (fun x => x * INR n)%R) in E.
        unfold Rdiv in E. rewrite Rmult_assoc, Rinv_l in E by lra. lra. }
      replace beta with (2 * PI * ((INR k - INR j) / INR n))%R
        by (unfold beta; field; lra).
      set (q := ((INR k - INR j) / INR n)%R) in *.
      destruct (Rlt_dec 0 q).
      - apply cos_lt_1. split; nra.
      - rewrite <- cos_neg. apply cos_lt_1. split; nra. }
    set (C := rsum n (fun m => cos (INR m * beta))) in *.
    set (S := rsum n (fun m => sin (INR m * beta))) in *.
    set (a := (1 - cos beta)%R) in *. set (b := sin beta) in *.
    assert (Ha : (0 < a)%R) by (unfold a; lra).
    assert (HC : ((a * a + b * b) * C = 0)%R)
      by (replace ((a * a + b * b) * C)%R
            with (a * (a * C + b * S) - b * (a * S - b * C))%R by ring;
          rewrite Hc, Hs; lra).
    assert (HS : ((a * a + b * b) * S = 0)%R)
      by (replace ((a * a + b * b) * S)%R
            with (b * (a * C + b * S) + a * (a * S - b * C))%R by ring;
          rewrite Hc, Hs; lra).
    assert (Hab : (0 < a * a + b * b)%R) by nra.
    split.
    + apply Rmult_integral in HC. destruct HC; lra.
    + apply Rmult_integral in HS. destruct HS; lra.
Qed.

(** ** The one-dimensional transform and its inverse *)

Lemma dft_term_eq (sign : R) (n k m : nat) (re im : R) (c : nat) :
  dft_term sign n k m re im c
  = if c =? 0
    then (re * cos (sign * (2 * PI * INR k * INR m / INR n))
          - im * sin (sign * (2 * PI * INR k * INR m / INR n)))%R
    else (re * sin (sign * (2 * PI * INR k * INR m / INR n))
          + im * cos (sign * (2 * PI * INR k * INR m / INR n)))%R.
Proof. reflexivity. Qed.

Lemma dft_term_compose (n k m j c : nat) (xr xi : R) :
  0 < n -> c < 2 ->
  dft_term 1 n k m (dft_term (-1) n m j xr xi 0) (dft_term (-1) n m j xr xi 1) c
  = (let beta := (2 * PI * (INR k - INR j) / INR n)%R in
     if c =? 0 then xr * cos (INR m * beta) - xi * sin (INR m * beta)
     else xr * sin (INR m * beta) + xi * cos (INR m * beta))%R.
Proof.
  intros Hn Hc. assert (HnR : (0 < INR n)%R) by (apply lt_0_INR; lia).
  unfold dft_term. cbn [Nat.eqb]. cbv zeta.
  set (t1 := (1 * (2 * PI * INR k * INR m / INR n))%R).
  set (t2 := (-1 * (2 * PI * INR m * INR j / INR n))%R).
  replace (INR m * (2 * PI * (INR k - INR j) / INR n))%R with (t1 + t2)%R
    by (unfold t1, t2; field; lra).
  rewrite cos_plus, sin_plus. destruct (c =? 0); ring.
Qed.

Lemma dft_inverse_1d (n k c : nat) (xr xi : nat -> R) :
  k < n -> c < 2 ->
  (rsum n (fun m =>
     dft_term 1 n k m
       (rsum n (fun j => dft_term (-1) n m j (xr j) (xi j) 0))
       (rsum n (fun j => dft_term (-1) n m j (xr j) (xi j) 1)) c) / INR n)%R
  = if c =? 0 then xr k else xi k.
Proof.
  intros Hk Hc. assert (Hn : 0 < n) by lia.
  assert (HnR : (0 < INR n)%R) by (apply lt_0_INR; lia).
  rewrite rsum_ext with
    (g := fun m => rsum n (fun j =>
            dft_term 1 n k m (dft_term (-1) n m j (xr j) (xi j) 0)
                             (dft_term (-1) n m j (xr j) (xi j) 1) c)).
  2:{ intros m _. rewrite (dft_term_eq 1).
      destruct (c =? 0) eqn:Ec.
      - rewrite !rsum_mult_r, <- rsum_minus. apply rsum_ext. intros j _.
        rewrite (dft_term_eq 1). now rewrite Ec.
      - rewrite !rsum_mult_r, <- rsum_plus. apply rsum_ext. intros j _.
        rewrite (dft_term_eq 1). now rewrite Ec. }
  rewrite rsum_swap.
  rewrite rsum_ext with
    (g := fun j => if j =? k
                   then ((if c =? 0 then xr j else xi j) * INR n)%R else 0%R).
  2:{ intros j Hj.
      rewrite rsum_ext with
        (g := fun m =>
           (let beta := (2 * PI * (INR k - INR j) / INR n)%R in
            if c =? 0 then xr j * cos (INR m * beta) - xi j * sin (INR m * beta)
            else xr j * sin (INR m * beta) + xi j * cos (INR m * beta))%R)
        by (intros m _; now apply dft_term_compose).
      cbv zeta. destruct (roots_of_unity_sum n k j Hk Hj) as [HC HS].
      cbv zeta in HC, HS.
      destruct (c =? 0).
      - rewrite rsum_minus, <- !rsum_mult_l, HC, HS.
        destruct (j =? k); lra.
      - rewrite rsum_plus, <- !rsum_mult_l, HC, HS.
        destruct (j =? k); lra. }
  rewrite (rsum_delta n k (fun j => ((if c =? 0 then xr j else xi j) * INR n)%R) Hk).
  destruct (c =? 0); field; lra.
Qed.

(** ** The transform along one axis of a tensor *)

Lemma tshape_dft_axis (sign : R) (ax : nat) (t : tensor) :
  tshape (dft_axis sign ax t) = tshape t.
Proof. reflexivity. Qed.

Lemma tshape_idft_axis (ax : nat) (t : tensor) :
  tshape (idft_axis ax t) = tshape t.
Proof. reflexivity. Qed.

Lemma wf_dft_axis (sign : R) (ax : nat) (t : tensor) : wf (dft_axis sign ax t).
Proof. apply wf_tabulate. Qed.

Lemma wf_idft_axis (ax : nat) (t : tensor) : wf (idft_axis ax t).
Proof. unfold idft_axis. apply wf_tmap, wf_dft_axis. Qed.

Lemma nth_app_pre (pre : list nat) (c ax : nat) :
  ax < length pre -> nth ax (pre ++ [c]) 0 = nth ax pre 0.
Proof. intros H. now apply app_nth1. Qed.

Lemma length_upd_nth (l : list nat) (d x : nat) :
  length (upd_nth d x l) = length l.
Proof.
  revert d. induction l as [|y l IH]; intros d.
  - destruct d; reflexivity.
  - destruct d as [|d]; simpl; [reflexivity|]. now rewrite IH.
Qed.

Lemma idft_dft_axis (t : tensor) (s : list nat) (ax : nat) :
  wf t -> tshape t = s ++ [2] -> ax < length s ->
  idft_axis ax (dft_axis (-1) ax t) = t.
Proof.
  intros Hwf Hs Hax. unfold idft_axis. rewrite tshape_dft_axis.
  unfold dft_axis at 1. rewrite tshape_dft_axis, tmap_tabulate.
  transitivity (tabulate (tshape t) (tget t)); [|now apply tabulate_tget].
  apply tabulate_ext. intros idx Hin. rewrite Hs in Hin |- *.
  apply in_range_app_inv in Hin. destruct Hin as (pre & c & -> & Hpre & Hc).
  pose proof (in_range_length _ _ Hpre) as Hlen.
  rewrite removelast_last, last_last, !nth_app_pre by lia.
  set (n := nth ax s 0). set (k := nth ax pre 0).
  assert (Hk : k < n) by (now apply nth_in_range).
  set (xr := fun j => tget t (upd_nth ax j pre ++ [0])).
  set (xi := fun j => tget t (upd_nth ax j pre ++ [1])).
  rewrite rsum_ext with
    (g := fun m => dft_term 1 n k m
            (rsum n (fun j => dft_term (-1) n m j (xr j) (xi j) 0))
            (rsum n (fun j => dft_term (-1) n m j (xr j) (xi j) 1)) c).
  2:{ intros m Hm.
      assert (Hu : in_range s (upd_nth ax m pre)) by (now apply upd_nth_in_range).
      unfold dft_axis. rewrite Hs, !nth_app_pre by lia. fold n.
      rewrite !tget_tabulate by (apply in_range_app; auto; lia).
      rewrite !removelast_last, !last_last.
      rewrite !nth_app_pre by (rewrite length_upd_nth; lia).
      rewrite !nth_upd_nth_same by lia.
      f_equal; apply rsum_ext; intros j _; now rewrite !upd_nth_twice. }
  rewrite (dft_inverse_1d n k c xr xi Hk Hc). unfold xr, xi, k.
  rewrite upd_nth_id.
  destruct c as [|[|c]]; [reflexivity|reflexivity|lia].
Qed.

Lemma fold_dft_shape (sign : R) (axes : list nat) (t : tensor) :
  tshape (fold_left (fun acc ax => dft_axis sign ax acc) axes t) = tshape t.
Proof.
  revert t. induction axes as [|a axes IH]; intros t; [reflexivity|].
  cbn [fold_left]. now rewrite IH.
Qed.

Lemma fold_idft_shape (axes : list nat) (t : tensor) :
  tshape (fold_left (fun acc ax => idft_axis ax acc) axes t) = tshape t.
Proof.
  revert t. induction axes as [|a axes IH]; intros t; [reflexivity|].
  cbn [fold_left]. now rewrite IH.
Qed.

Lemma fold_dft_wf (sign : R) (axes : list nat) (t : tensor) :
  wf t -> wf (fold_left (fun acc ax => dft_axis sign ax acc) axes t).
Proof.
  revert t. induction axes as [|a axes IH]; intros t Hwf; [exact Hwf|].
  cbn [fold_left]. apply IH, wf_dft_axis.
Qed.

Lemma fold_idft_wf (axes : list nat) (t : tensor) :
  wf t -> wf (fold_left (fun acc ax => idft_axis ax acc) axes t).
Proof.
  revert t. induction axes as [|a axes IH]; intros t Hwf; [exact Hwf|].
  cbn [fold_left]. apply IH, wf_idft_axis.
Qed.

Lemma idft_dft_axes (axes : list nat) (t : tensor) (s : list nat) :
  wf t -> tshape t = s ++ [2] -> Forall (fun ax => ax < length s) axes ->
  fold_left (fun acc ax => idft_axis ax acc) (rev axes)
    (fold_left (fun acc ax => dft_axis (-1) ax acc) axes t) = t.
Proof.
  revert t. induction axes as [|a axes IH]; intros t Hwf Hs Hax; [reflexivity|].
  inversion Hax as [|? ? Ha Hrest]; subst.
  cbn [fold_left rev]. rewrite fold_left_app. cbn [fold_left].
  rewrite IH; auto using wf_dft_axis.
  now apply idft_dft_axis with s.
Qed.

(** ** The model satisfies the laws *)

Lemma fft_checks_domain (n : nat) (t : tensor) :
  fft_domain n t -> fft_checks t n = true.
Proof.
  intros (_ & Hl & Hn & Hr & _). unfold fft_checks. rewrite Hl.
  destruct (Nat.leb_spec 1 n); [|lia].
  destruct (Nat.leb_spec n 3); [|lia].
  destruct (Nat.ltb_spec n (rank t)); [reflexivity|lia].
Qed.

Lemma fft_checks_shape (t u : tensor) (n : nat) :
  tshape u = tshape t -> fft_checks u n = fft_checks t n.
Proof. intros H. unfold fft_checks, rank. now rewrite H. Qed.

Lemma signal_axes_shape (t u : tensor) (n : nat) :
  tshape u = tshape t -> signal_axes u n = signal_axes t n.
Proof. intros H. unfold signal_axes, rank. now rewrite H. Qed.

Lemma signal_axes_bound (t : tensor) (s : list nat) (n : nat) :
  tshape t = s ++ [2] -> n < rank t ->
  Forall (fun ax => ax < length s) (signal_axes t n).
Proof.
  intros Hs Hn. unfold signal_axes, rank in *. rewrite Hs, length_app in *.
  simpl in *. apply Forall_forall. intros ax Hin. apply in_seq in Hin. lia.
Qed.

Lemma dft_total (n : nat) (t : tensor) :
  fft_domain n t -> exists F, dft t n = OK F /\ tshape F = tshape t /\ wf F.
Proof.
  intros Hd. unfold dft. rewrite (fft_checks_domain n t Hd).
  eexists. split; [reflexivity|]. split; [apply fold_dft_shape|].
  apply fold_dft_wf, Hd.
Qed.

Lemma idft_total (n : nat) (t : tensor) :
  fft_domain n t -> exists f, idft t n = OK f /\ tshape f = tshape t /\ wf f.
Proof.
  intros Hd. unfold idft. rewrite (fft_checks_domain n t Hd).
  eexists. split; [reflexivity|]. split; [apply fold_idft_shape|].
  apply fold_idft_wf, Hd.
Qed.

Lemma idft_dft (n : nat) (t F : tensor) :
  fft_domain n t -> dft t n = OK F -> idft F n = OK t.
Proof.
  intros Hd HF. pose proof (fft_checks_domain n t Hd) as Hc.
  destruct Hd as (Hwf & Hl & Hn & Hr & _).
  unfold dft in HF. rewrite Hc in HF. injection HF as <-.
  destruct (last_dim_inv _ _ Hl) as [s Hs].
  unfold idft.
  rewrite (fft_checks_shape t _ n (fold_dft_shape _ _ _)), Hc.
  rewrite (signal_axes_shape t _ n (fold_dft_shape _ _ _)).
  f_equal. apply idft_dft_axes with s; auto.
  now apply signal_axes_bound.
Qed.

(** Entry [i] of a batch. *)
Lemma slice0_idft_axis (t : tensor) (D : nat) (s : list nat) (i ax : nat) :
  tshape t = D :: s ++ [2] -> i < D -> ax < length s ->
  tabulate (s ++ [2]) (fun idx => tget (idft_axis (S ax) t) (i :: idx))
  = idft_axis ax (tabulate (s ++ [2]) (fun idx => tget t (i :: idx))).
Proof.
  intros Ht Hi Hax. unfold idft_axis, dft_axis. rewrite !tmap_tabulate.
  cbn [tshape tabulate]. rewrite Ht. cbn [nth].
  rewrite !nth_app_pre by lia.
  apply tabulate_ext. intros idx Hin.
  rewrite tget_tabulate by (constructor; assumption).
  apply in_range_app_inv in Hin. destruct Hin as (pre & c & -> & Hpre & Hc).
  pose proof (in_range_length _ _ Hpre) as Hlen.
  f_equal. apply rsum_ext. intros m Hm.
  change (i :: pre ++ [c]) with ((i :: pre) ++ [c]).
  rewrite !removelast_last, !last_last. cbn [nth upd_nth].
  assert (Hu : in_range s (upd_nth ax m pre)) by (now apply upd_nth_in_range).
  rewrite !tget_tabulate by (apply in_range_app; auto; lia).
  reflexivity.
Qed.

Lemma slice0_fold_idft (axes : list nat) (t : tensor) (D : nat) (s : list nat)
  (i : nat) :
  tshape t = D :: s ++ [2] -> i < D -> Forall (fun ax => ax < length s) axes ->
  tabulate (s ++ [2]) (fun idx =>
    tget (fold_left (fun acc ax => idft_axis ax acc) (map S axes) t) (i :: idx))
  = fold_left (fun acc ax => idft_axis ax acc) axes
      (tabulate (s ++ [2]) (fun idx => tget t (i :: idx))).
Proof.
  revert t. induction axes as [|a axes IH]; intros t Ht Hi Hax; [reflexivity|].
  inversion Hax as [|? ? Ha Hrest]; subst.
  cbn [map fold_left]. rewrite IH by auto.
  now rewrite (slice0_idft_axis t D s i a Ht Hi Ha).
Qed.

Lemma idft_batch (n : nat) (t : tensor) (i : nat) :
  fft_domain n t -> S n < rank t -> i < hd 0 (tshape t) ->
  (r <- idft t n ;; select_axis 0 i r) = (s <- select_axis 0 i t ;; idft s n).
Proof.
  intros Hd Hr Hi. pose proof (fft_checks_domain n t Hd) as Hc.
  destruct Hd as (Hwf & Hl & Hn & _ & _).
  destruct (last_dim_inv _ _ Hl) as [s0 Hs0].
  destruct s0 as [|D s];
    [unfold rank in Hr; rewrite Hs0 in Hr; simpl in Hr; lia|].
  assert (Ht : tshape t = D :: s ++ [2]) by exact Hs0.
  rewrite Ht in Hi. cbn [hd] in Hi.
  assert (Hrk : rank t = S (S (length s))).
  { unfold rank. rewrite Ht. simpl. rewrite length_app. simpl. lia. }
  unfold idft. rewrite Hc. cbn [bind].
  rewrite (select_axis0_eq _ D (s ++ [2]) i) by (rewrite ?fold_idft_shape; auto).
  rewrite (select_axis0_eq t D (s ++ [2]) i Ht Hi). cbn [bind].
  set (u := tabulate (s ++ [2]) (fun idx => tget t (i :: idx))).
  assert (Hns : n <= length s) by (rewrite Hrk in Hr; lia).
  assert (Hcu : fft_checks u n = true).
  { unfold fft_checks, rank, u. cbn [tshape tabulate].
    rewrite last_dim_app, length_app. cbn [length].
    rewrite !andb_true_iff, !Nat.leb_le, Nat.ltb_lt. lia. }
  rewrite Hcu. f_equal.
  assert (Hax : signal_axes t n = map S (signal_axes u n)).
  { unfold signal_axes. rewrite Hrk. unfold rank, u. cbn [tshape tabulate].
    rewrite length_app. cbn [length]. rewrite seq_shift. f_equal. lia. }
  rewrite Hax, <- map_rev.
  apply (slice0_fold_idft _ t D s i Ht Hi).
  apply Forall_forall. intros ax Hin. apply in_rev in Hin.
  unfold signal_axes, rank, u in Hin. cbn [tshape tabulate] in Hin.
  rewrite length_app in Hin. cbn [length] in Hin. apply in_seq in Hin. lia.
Qed.

Lemma dft_fourier_pair : fourier_pair dft idft.
Proof.
  constructor.
  - exact dft_total.
  - exact idft_total.
  - exact idft_dft.
  - exact idft_batch.
Qed.

(** ** The defocus stack on the discrete Fourier transform *)

Lemma fft_domain_field_1x2 : fft_domain 2 field_1x2.
Proof.
  split; [reflexivity|]. split; [reflexivity|]. split; [lia|].
  split; [unfold rank; simpl; lia|]. repeat constructor.
Qed.

Lemma Defocus_forward_zero_identity_witness :
  exists out ctx,
    Defocus_forward dft idft field_1x2 kernel_1x2 (PyList [0%R]) = OK (out, ctx) /\
    tshape out = [1; 2; 1; 2] /\ tdata out = tdata field_1x2.
Proof.
  apply (Defocus_forward_zero_identity dft idft dft_fourier_pair
           field_1x2 kernel_1x2 1 2).
  - exact fft_domain_field_1x2.
  - reflexivity.
  - reflexivity.
  - reflexivity.
Defined.

Lemma Defocus_backward_needs_tensor_witness :
  (exists out ctx,
     Defocus_forward dft idft field_1x2 kernel_1x2 (PyList [1; -2]%R)
     = OK (out, ctx) /\
     forall g, Defocus_backward dft idft ctx g = Error AttributeError) /\
  (exists out ctx,
     Defocus_forward dft idft field_1x2 kernel_1x2 default_defocus_list
     = OK (out, ctx) /\
     forall g, Defocus_backward dft idft ctx g = Error AttributeError) /\
  (forall k F dl g grads,
     Defocus_backward dft idft (k, F, dl) g = OK grads ->
     exists offs, dl = TorchTensor offs).
Proof.
  apply (Defocus_backward_needs_tensor dft idft dft_fourier_pair
           field_1x2 kernel_1x2 1 2 [1; -2]%R).
  - exact fft_domain_field_1x2.
  - reflexivity.
  - reflexivity.
  - discriminate.
Defined.

(** ** Multislice propagation *)

Lemma for_each_ext (A S : Type) (xs : list A) (f g : A -> S -> result S) (s0 : S) :
  (forall x s, In x xs -> f x s = g x s) -> for_each xs f s0 = for_each xs g s0.
Proof.
  revert s0. induction xs as [|x xs IH]; intros s0 H; [reflexivity|].
  cbn [for_each]. rewrite (H x s0) by now left.
  destruct (g x s0); cbn [bind]; [|reflexivity].
  apply IH. intros y s Hy. apply H. now right.
Qed.

(** For two layers or more the code follows the layer rule. *)
Lemma Multislice_forward_layer_rule
  (torch_fft torch_ifft : tensor -> nat -> result tensor)
  (gen : nat * nat -> R -> R -> tensor)
  (h w L : nat) (vx vy s wavelength : R) (obj field : tensor) :
  2 <= L ->
  MultislicePropagation_forward torch_fft torch_ifft
    (MultislicePropagation_init gen (h, w, L) (vx, vy, s) wavelength)
    obj (Some field)
  = multislice_layer_rule
      (SingleSlicePropagation_forward torch_fft torch_ifft
         (SingleSlicePropagation_init gen (h, w) vx wavelength))
      L s obj field.
Proof.
  intros HL. unfold MultislicePropagation_forward, multislice_layer_rule.
  cbn [MultislicePropagation_init shape voxel_size propagate distance_to_center].
  destruct L as [|L']; [lia|]. cbn [seq for_each].
  replace (S L' - 1) with L' by lia.
  destruct (Nat.ltb_spec 0 L'); [|lia].
  rewrite !bind_assoc.
  destruct (layer obj 0) as [l0|]; [cbn [bind]|reflexivity].
  destruct (complex_mul field l0) as [f0|]; [cbn [bind]|reflexivity].
  destruct (SingleSlicePropagation_forward torch_fft torch_ifft _ f0 s) as [f1|];
    [cbn [bind]|reflexivity].
  apply for_each_ext. intros i f Hi.
  destruct (layer obj i) as [l|]; [cbn [bind]|reflexivity].
  destruct (complex_mul f l) as [f'|]; [cbn [bind]|reflexivity].
  destruct (i <? L'); [reflexivity|]. f_equal. lra.
Qed.

(** With a single layer the code multiplies and then propagates forward by
    the spacing; the loop that recenters is never entered. *)
Lemma Multislice_forward_single_layer
  (torch_fft torch_ifft : tensor -> nat -> result tensor)
  (gen : nat * nat -> R -> R -> tensor)
  (h w : nat) (vx vy s wavelength : R) (obj field : tensor) :
  MultislicePropagation_forward torch_fft torch_ifft
    (MultislicePropagation_init gen (h, w, 1) (vx, vy, s) wavelength)
    obj (Some field)
  = (l0 <- layer obj 0 ;;
     f <- complex_mul field l0 ;;
     SingleSlicePropagation_forward torch_fft torch_ifft
       (SingleSlicePropagation_init gen (h, w) vx wavelength) f s).
Proof.
  unfold MultislicePropagation_forward.
  cbn [MultislicePropagation_init shape voxel_size propagate Nat.sub seq for_each].
  rewrite !bind_assoc.
  destruct (layer obj 0) as [l0|]; [cbn [bind]|reflexivity].
  destruct (complex_mul field l0) as [f0|]; [cbn [bind]|reflexivity].
  apply bind_ret.
Qed.

(** The layer rule on a single layer: multiply, and stay in the midplane. *)
Lemma multislice_layer_rule_single_layer
  (torch_fft torch_ifft : tensor -> nat -> result tensor)
  (self : SingleSlicePropagation) (s : R) (obj field : tensor) :
  multislice_layer_rule
    (SingleSlicePropagation_forward torch_fft torch_ifft self) 1 s obj field
  = (l0 <- layer obj 0 ;; complex_mul field l0).
Proof.
  unfold multislice_layer_rule. cbn [seq for_each Nat.sub Nat.ltb Nat.leb].
  destruct (layer obj 0) as [l0|]; [cbn [bind]|reflexivity].
  destruct (complex_mul field l0) as [f0|]; [cbn [bind]|reflexivity].
  replace (- (INR 1 / 2 - 1 / 2) * s)%R with 0%R by (simpl; lra).
  unfold SingleSlicePropagation_forward.
  destruct (Req_EM_T 0 0) as [_|Hne]; [reflexivity|now contradiction Hne].
Qed.

(** The transform of a one-point signal is the signal. *)
Lemma dft_axis_unit (sign : R) (t : tensor) (s : list nat) (ax : nat) :
  wf t -> tshape t = s ++ [2] -> ax < length s -> nth ax s 0 = 1 ->
  dft_axis sign ax t = t.
Proof.
  intros Hwf Hs Hax Hn. unfold dft_axis.
  transitivity (tabulate (tshape t) (tget t)); [|now apply tabulate_tget].
  apply tabulate_ext. intros idx Hin. rewrite Hs in Hin |- *.
  apply in_range_app_inv in Hin. destruct Hin as (pre & c & -> & Hpre & Hc).
  pose proof (in_range_length _ _ Hpre) as Hlen.
  pose proof (nth_in_range s pre ax Hpre Hax) as Hk.
  rewrite removelast_last, last_last, !nth_app_pre by lia.
  rewrite Hn in Hk |- *. assert (Hk0 : nth ax pre 0 = 0) by lia.
  pose proof (upd_nth_id pre ax) as Hupd. rewrite Hk0 in Hupd.
  rewrite rsum_S, rsum_0, Hk0, dft_term_eq, Hupd.
  simpl INR. replace (sign * (2 * PI * 0 * 0 / 1))%R with 0%R by lra.
  rewrite cos_0, sin_0.
  destruct c as [|[|c]]; cbn [Nat.eqb]; [lra | lra | lia].
Qed.

Lemma idft_axis_unit (t : tensor) (s : list nat) (ax : nat) :
  wf t -> tshape t = s ++ [2] -> ax < length s -> nth ax s 0 = 1 ->
  idft_axis ax t = t.
Proof.
  intros Hwf Hs Hax Hn. unfold idft_axis.
  rewrite (dft_axis_unit 1 t s ax Hwf Hs Hax Hn).
  rewrite Hs, nth_app_pre, Hn by lia.
  transitivity (tabulate (tshape t) (tget t)); [|now apply tabulate_tget].
  rewrite <- (tabulate_tget t Hwf) at 1. rewrite tmap_tabulate.
  apply tabulate_ext. intros idx _. simpl INR. lra.
Qed.

Lemma dft_1x1 (t : tensor) :
  wf t -> tshape t = [1; 1; 2] -> dft t 2 = OK t /\ idft t 2 = OK t.
Proof.
  intros Hwf Hs. unfold dft, idft, fft_checks, signal_axes, rank. rewrite Hs.
  cbn [last_dim rev app length Nat.leb Nat.ltb andb Nat.sub seq fold_left].
  rewrite !(dft_axis_unit (-1) t [1; 1]) by (auto; simpl; lia).
  rewrite !(idft_axis_unit t [1; 1]) by (auto; simpl; lia).
  auto.
Qed.

Lemma layer_volume_1x1x1 : layer volume_1x1x1 0 = OK field_1x1.
Proof. reflexivity. Qed.

Lemma SingleSlice_kernel_k_pi :
  SingleSlice_kernel k_pi 1 = OK (mkTensor [1; 1; 2] [-1; 0]%R).
Proof.
  unfold SingleSlice_kernel. rewrite complex_exp_eq by reflexivity.
  rewrite (exp_eq _ [1; 1] 2) by (reflexivity || lia). cbn [bind].
  rewrite Rlt_dec_true by lra.
  unfold tabulate, exp_values, tget. cbn.
  rewrite Rabs_R1, !Rmult_1_l, exp_0, cos_PI, sin_PI.
  do 3 f_equal; [lra | f_equal; lra].
Qed.

Lemma complex_mul_field_layer_1x1 :
  exists f, complex_mul field_1x1 field_1x1 = OK f /\
            wf f /\ tshape f = [1; 1; 2] /\
            tget f [0; 0; 0] = 1%R /\ tget f [0; 0; 1] = 0%R.
Proof.
  eexists. split; [reflexivity|].
  split; [reflexivity|]. split; [reflexivity|].
  unfold tget. cbn. split; lra.
Qed.

Lemma Multislice_single_layer_values :
  exists out out_rule,
    MultislicePropagation_forward dft idft multislice_1x1x1 volume_1x1x1
      (Some field_1x1) = OK out /\
    multislice_layer_rule
      (SingleSlicePropagation_forward dft idft (propagate multislice_1x1x1))
      1 1 volume_1x1x1 field_1x1 = OK out_rule /\
    tget out [0; 0; 0] = (-1)%R /\ tget out_rule [0; 0; 0] = 1%R.
Proof.
  destruct complex_mul_field_layer_1x1 as (f & Hf & Hwf & Hsf & Hre & Him).
  unfold multislice_1x1x1.
  rewrite Multislice_forward_single_layer, multislice_layer_rule_single_layer.
  rewrite layer_volume_1x1x1. cbn [bind]. rewrite Hf. cbn [bind].
  unfold SingleSlicePropagation_forward.
  destruct (Req_EM_T 1 0) as [Habs|_]; [lra|].
  cbn [SingleSlicePropagation_init kernel_phase].
  rewrite SingleSlice_kernel_k_pi. cbn [bind].
  unfold complex_conv, ComplexConv_forward, convolve_kernel.
  rewrite (proj1 (dft_1x1 f Hwf Hsf)). cbn [bind].
  rewrite (multiply_same_eq f _ [1; 1] 2 2) by (assumption || reflexivity || lia).
  cbn [bind].
  rewrite (proj2 (dft_1x1 _ (wf_tabulate _ _) eq_refl)). cbn [bind fst].
  eexists. eexists. split; [reflexivity|]. split; [reflexivity|].
  split; [|exact Hre].
  rewrite tget_tabulate by range_solve.
  unfold mul_values. cbn [removelast last app Nat.eqb].
  rewrite Hre, Him. unfold tget. cbn. lra.
Qed.

(** C2, on a volume of a single layer: the claim asks for the layer to be
    followed by a propagation by [-(1/2 - 1/2) * s = 0], which leaves the
    product of field and layer, [1 + 0j], in the midplane.  The code
    propagates it forward by the spacing [s = 1] and returns [-1 + 0j]: with
    one layer the loop that recenters is never entered. *)
Theorem Multislice_single_layer_not_recentered :
  distance_to_center multislice_1x1x1 = 0%R /\
  exists out out_rule,
    MultislicePropagation_forward dft idft multislice_1x1x1 volume_1x1x1
      (Some field_1x1) = OK out /\
    multislice_layer_rule
      (SingleSlicePropagation_forward dft idft (propagate multislice_1x1x1))
      1 1 volume_1x1x1 field_1x1 = OK out_rule /\
    tget out [0; 0; 0] = (-1)%R /\ tget out_rule [0; 0; 0] = 1%R /\
    out <> out_rule.
Proof.
  split; [simpl; lra|].
  destruct Multislice_single_layer_values as (out & out_rule & H1 & H2 & H3 & H4).
  exists out, out_rule. repeat split; auto.
  intros E. rewrite E, H4 in H3. lra.
Qed.

(** * Further properties of the operators *)

(** ** Sums over the trailing axis and the absolute value *)

Lemma insert_nth_length_app (pre : list nat) (i : nat) :
  insert_nth (length pre) i pre = pre ++ [i].
Proof. induction pre as [|y pre IH]; simpl; [reflexivity|]. now rewrite IH. Qed.

Lemma remove_nth_length_shape (s : list nat) (n : nat) :
  remove_nth (length s) (s ++ [n]) = s.
Proof. induction s as [|y s IH]; simpl; [reflexivity|]. now rewrite IH. Qed.

Lemma sum_last_eq (t : tensor) (s : list nat) (n : nat) :
  tshape t = s ++ [n] ->
  sum_last t = OK (tabulate s (fun pre => rsum n (fun i => tget t (pre ++ [i])))).
Proof.
  intros Hs. unfold sum_last, sum_axis, rank. rewrite Hs.
  destruct (s ++ [n]) as [|x l] eqn:E; [now destruct s|]. rewrite <- E.
  rewrite length_app. cbn [length].
  replace (length s + 1 - 1) with (length s) by lia.
  destruct (Nat.ltb_spec (length s) (length s + 1)); [|lia].
  rewrite remove_nth_length_shape, nth_middle. f_equal.
  apply tabulate_ext. intros pre Hpre. apply rsum_ext. intros i _.
  rewrite <- (in_range_length _ _ Hpre). now rewrite insert_nth_length_app.
Qed.

Lemma rsum_2 (f : nat -> R) : rsum 2 f = Rplus (f 0) (f 1).
Proof. unfold rsum. simpl. lra. Qed.

Lemma abs_eq (t : tensor) (s : list nat) :
  wf t -> tshape t = s ++ [2] ->
  abs t = OK (tabulate s (fun pre =>
                sqrt (Rplus (tget t (pre ++ [0]) ^ 2) (tget t (pre ++ [1]) ^ 2)))).
Proof.
  intros Hwf Hs. unfold abs.
  rewrite assert_complex_accepts by (rewrite Hs; apply last_dim_app). cbn [bind].
  rewrite (sum_last_eq _ s 2) by exact Hs. cbn [bind].
  rewrite tmap_tabulate. f_equal. apply tabulate_ext. intros pre Hpre.
  rewrite rsum_2.
  rewrite !tget_tmap by (auto; rewrite Hs; apply in_range_app; auto).
  reflexivity.
Qed.

(** ** Embedding real tensors *)

Lemma zeros_like_eq (x : tensor) :
  wf x -> zeros_like x = tabulate (tshape x) (fun _ => 0%R).
Proof.
  intros Hwf. unfold zeros_like. rewrite <- (tabulate_tget x Hwf) at 1.
  now rewrite tmap_tabulate.
Qed.

(** X1: the real part of [r2c x] is [x] and its imaginary part is zero
    everywhere. *)
Theorem r2c_real_imag (x : tensor) :
  wf x ->
  (c <- r2c x ;; real c) = OK x /\
  (c <- r2c x ;; imag c) = OK (zeros_like x).
Proof.
  intros Hwf. rewrite (r2c_eq x Hwf). cbn [bind]. unfold real, imag.
  rewrite !(select_last_eq _ (tshape x) 2) by (reflexivity || lia).
  split; f_equal.
  - transitivity (tabulate (tshape x) (tget x)); [|now apply tabulate_tget].
    apply tabulate_ext. intros pre Hpre.
    rewrite tget_tabulate by (apply in_range_app; auto).
    now rewrite last_last, removelast_last.
  - rewrite (zeros_like_eq x Hwf). apply tabulate_ext. intros pre Hpre.
    rewrite tget_tabulate by (apply in_range_app; auto).
    now rewrite last_last.
Qed.

Lemma r2c_real_imag_witness :
  (c <- r2c m_2x3 ;; real c) = OK m_2x3 /\
  (c <- r2c m_2x3 ;; imag c) = OK (zeros_like m_2x3).
Proof. apply r2c_real_imag. reflexivity. Defined.

(** X3: the exponential of the embedded zero tensor is the embedded tensor
    of ones. *)
Theorem exp_r2c_zero (x : tensor) :
  wf x ->
  (c <- r2c (zeros_like x) ;; exp c) = r2c (tmap (fun _ => 1%R) x).
Proof.
  intros Hwf.
  rewrite (r2c_eq (zeros_like x)) by (now apply wf_tmap).
  rewrite (r2c_eq (tmap (fun _ => 1%R) x)) by (now apply wf_tmap).
  cbn [bind tshape tmap zeros_like].
  rewrite (exp_eq _ (tshape x) 2) by (reflexivity || lia).
  f_equal. apply tabulate_ext. intros idx Hin. unfold exp_values.
  apply in_range_app_inv in Hin. destruct Hin as (pre & c & -> & Hpre & Hc).
  rewrite last_last, removelast_last.
  rewrite !tget_tabulate by (apply in_range_app; auto).
  rewrite !last_last, !removelast_last. cbn [Nat.eqb].
  rewrite (tget_tmap _ x pre Hwf Hpre).
  fold (zeros_like x). rewrite (zeros_like_eq x Hwf), (tget_tabulate _ _ _ Hpre).
  rewrite exp_0, cos_0, sin_0.
  destruct c as [|[|c]]; cbn [Nat.eqb]; [lra | lra | lia].
Qed.

Lemma exp_r2c_zero_witness :
  (c <- r2c (zeros_like m_2x3) ;; exp c) = r2c (tmap (fun _ => 1%R) m_2x3).
Proof. apply exp_r2c_zero. reflexivity. Defined.

(** ** Complex multiplication and division *)

Tactic Notation "complex_position" hyp(Hin) ident(pre) ident(c) ident(Hpre)
  ident(Hc) ident(H0) ident(H1) :=
  match type of Hin with
  | in_range (?s ++ [_]) _ =>
      apply in_range_app_inv in Hin;
      destruct Hin as (pre & c & -> & Hpre & Hc);
      assert (H0 : in_range (s ++ [2]) (pre ++ [0])) by (apply in_range_app; auto; lia);
      assert (H1 : in_range (s ++ [2]) (pre ++ [1])) by (apply in_range_app; auto; lia);
      rewrite ?last_last, ?removelast_last
  end.

Lemma division_complex_shape (z1 z2 : tensor) (s : list nat) (n1 n2 : nat) :
  tshape z1 = s ++ [n1] -> tshape z2 = s ++ [n2] -> 1 < n1 -> 1 < n2 ->
  exists r, division_complex z1 z2 = OK r /\ tshape r = s ++ [2].
Proof.
  intros H1 H2 Hn1 Hn2. unfold division_complex.
  rewrite (sum_last_eq _ s n2) by exact H2. cbn [bind].
  rewrite (select_last_eq z1 s n1 0 H1) by lia. cbn [bind].
  rewrite (select_last_eq z2 s n2 0 H2) by lia. cbn [bind].
  rewrite bop_same by reflexivity. cbn [bind tshape tabulate].
  rewrite (select_last_eq z1 s n1 1 H1) by lia. cbn [bind].
  rewrite (select_last_eq z2 s n2 1 H2) by lia. cbn [bind].
  rewrite bop_same by reflexivity. cbn [bind tshape tabulate].
  rewrite bop_same by reflexivity. cbn [bind tshape tabulate].
  rewrite bop_same by reflexivity. cbn [bind tshape tabulate].
  rewrite bop_same by reflexivity. cbn [bind tshape tabulate].
  rewrite bop_same by reflexivity. cbn [bind tshape tabulate].
  rewrite bop_same by reflexivity. cbn [bind tshape tabulate].
  rewrite bop_same by reflexivity. cbn [bind tshape tabulate].
  rewrite (stack_last_eq _ _ s) by reflexivity.
  eexists. split; reflexivity.
Qed.

(** X4: complex multiplication of two complex tensors of one shape does not
    depend on the order of the operands. *)
Theorem multiply_complex_comm (z1 z2 : tensor) (s : list nat) :
  tshape z1 = s ++ [2] -> tshape z2 = s ++ [2] ->
  multiply_complex z1 z2 = multiply_complex z2 z1.
Proof.
  intros H1 H2.
  rewrite (multiply_same_eq z1 z2 s 2 2), (multiply_same_eq z2 z1 s 2 2)
    by (assumption || lia).
  f_equal. apply tabulate_ext. intros idx _. unfold mul_values.
  destruct (last idx 0 =? 0); ring.
Qed.

Lemma multiply_complex_comm_witness :
  multiply_complex z_3_4j z_5_6j = multiply_complex z_5_6j z_3_4j.
Proof. apply (multiply_complex_comm z_3_4j z_5_6j [1]); reflexivity. Defined.

(** X6: the conjugate of a product is the product of the conjugates. *)
Theorem conj_multiply_complex (z1 z2 : tensor) (s : list nat) :
  tshape z1 = s ++ [2] -> tshape z2 = s ++ [2] ->
  (p <- multiply_complex z1 z2 ;; conj p)
  = (c1 <- conj z1 ;; c2 <- conj z2 ;; multiply_complex c1 c2).
Proof.
  intros H1 H2.
  rewrite (multiply_same_eq z1 z2 s 2 2) by (assumption || lia). cbn [bind].
  rewrite (conj_eq _ s 2), (conj_eq z1 s 2), (conj_eq z2 s 2)
    by (assumption || reflexivity || lia).
  cbn [bind].
  rewrite (multiply_same_eq _ _ s 2 2) by (reflexivity || lia).
  f_equal. apply tabulate_ext. intros idx Hin. unfold conj_values at 1.
  rewrite (tget_tabulate _ _ _ Hin). unfold mul_values.
  complex_position Hin pre c Hpre Hc Hi0 Hi1.
  rewrite !(tget_tabulate _ _ _ Hi0), !(tget_tabulate _ _ _ Hi1).
  unfold conj_values. rewrite !last_last. cbn [Nat.eqb].
  destruct c as [|[|c]]; cbn [Nat.eqb]; [ring | ring | lia].
Qed.

Lemma conj_multiply_complex_witness :
  (p <- multiply_complex z_3_4j z_5_6j ;; conj p)
  = (c1 <- conj z_3_4j ;; c2 <- conj z_5_6j ;; multiply_complex c1 c2).
Proof. apply (conj_multiply_complex z_3_4j z_5_6j [1]); reflexivity. Defined.

(** ** Operators without the shape assertion *)

(** C3: the code does not meet the claim.  On every tensor whose trailing
    axis is longer than 2, [abs] and the forward functions of the
    differentiable multiply, divide, abs, abs-squared and exponential
    operators fail with the assertion (shape) error, as the claim says; the
    forward function of the differentiable conjugate, the one wrapper without
    the assertion, and the primitives [conj], [angle], [exp],
    [multiply_complex] and [division_complex] raise nothing and return a
    result computed from channels 0 and 1. *)
Theorem shape_assertion_missing (t : tensor) (s : list nat) (n : nat) :
  tshape t = s ++ [n] -> 2 < n ->
  (abs t = Error AssertionError /\
   ComplexAbs_forward t = Error AssertionError /\
   ComplexAbs2_forward t = Error AssertionError /\
   ComplexExp_forward t = Error AssertionError /\
   ComplexMul_forward t t = Error AssertionError /\
   ComplexDiv_forward t t = Error AssertionError) /\
  ComplexConj_forward t = OK (tabulate (s ++ [n]) (conj_values t)) /\
  conj t = OK (tabulate (s ++ [n]) (conj_values t)) /\
  angle t = OK (tabulate s (fun pre =>
                  atan2 (tget t (pre ++ [1])) (tget t (pre ++ [0])))) /\
  exp t = OK (tabulate (s ++ [n]) (exp_values t)) /\
  multiply_complex t t = OK (tabulate (s ++ [2]) (mul_values t t)) /\
  exists r, division_complex t t = OK r /\ tshape r = s ++ [2].
Proof.
  intros Hs Hn.
  assert (Hl : last_dim (tshape t) = Some n) by (rewrite Hs; apply last_dim_app).
  assert (Hne : n <> 2) by lia.
  destruct (checked_operators_shape_error t n Hl Hne)
    as (Ha & Hab & Hab2 & He & Hm & _ & Hd & _).
  split; [repeat split; auto|].
  unfold ComplexConj_forward.
  rewrite (conj_eq t s n Hs), (angle_eq t s n Hs), (exp_eq t s n Hs) by lia.
  rewrite (multiply_same_eq t t s n n Hs Hs) by lia.
  repeat split. apply (division_complex_shape t t s n n Hs Hs); lia.
Qed.

Lemma shape_assertion_missing_witness :
  (abs vec3 = Error AssertionError /\
   ComplexAbs_forward vec3 = Error AssertionError /\
   ComplexAbs2_forward vec3 = Error AssertionError /\
   ComplexExp_forward vec3 = Error AssertionError /\
   ComplexMul_forward vec3 vec3 = Error AssertionError /\
   ComplexDiv_forward vec3 vec3 = Error AssertionError) /\
  ComplexConj_forward vec3 = OK (tabulate [3] (conj_values vec3)) /\
  conj vec3 = OK (tabulate [3] (conj_values vec3)) /\
  angle vec3 = OK (tabulate [] (fun pre =>
                     atan2 (tget vec3 (pre ++ [1])) (tget vec3 (pre ++ [0])))) /\
  exp vec3 = OK (tabulate [3] (exp_values vec3)) /\
  multiply_complex vec3 vec3 = OK (tabulate [2] (mul_values vec3 vec3)) /\
  exists r, division_complex vec3 vec3 = OK r /\ tshape r = [2].
Proof.
  apply (shape_assertion_missing vec3 [] 3); [reflexivity | lia].
Defined.

(** ** Conjugate, exponential and absolute value *)

(** X7: conjugation keeps the shape and the absolute value. *)
Theorem abs_conj (z : tensor) (s : list nat) :
  wf z -> tshape z = s ++ [2] ->
  (c <- conj z ;; abs c) = abs z /\
  exists c, conj z = OK c /\ tshape c = tshape z.
Proof.
  intros Hwf Hs. rewrite (conj_eq z s 2 Hs) by lia. cbn [bind]. split.
  - rewrite (abs_eq _ s) by (apply wf_tabulate || reflexivity).
    rewrite (abs_eq z s Hwf Hs). f_equal. apply tabulate_ext. intros pre Hpre.
    rewrite !tget_tabulate by (apply in_range_app; auto).
    unfold conj_values. rewrite !last_last. cbn [Nat.eqb]. f_equal. ring.
  - eexists. split; [reflexivity|]. now rewrite Hs.
Qed.

Lemma abs_conj_witness :
  (c <- conj z_3_4j ;; abs c) = abs z_3_4j /\
  exists c, conj z_3_4j = OK c /\ tshape c = tshape z_3_4j.
Proof. apply (abs_conj z_3_4j [1]); reflexivity. Defined.

(** X8: the exponential commutes with conjugation. *)
Theorem exp_conj (z : tensor) (s : list nat) :
  tshape z = s ++ [2] ->
  (c <- conj z ;; exp c) = (e <- exp z ;; conj e).
Proof.
  intros Hs.
  rewrite (conj_eq z s 2 Hs), (exp_eq z s 2 Hs) by lia. cbn [bind].
  rewrite (exp_eq _ s 2), (conj_eq _ s 2) by (reflexivity || lia).
  f_equal. apply tabulate_ext. intros idx Hin. unfold conj_values at 2.
  rewrite (tget_tabulate _ _ _ Hin). unfold exp_values.
  complex_position Hin pre c Hpre Hc Hi0 Hi1.
  rewrite !(tget_tabulate _ _ _ Hi0), !(tget_tabulate _ _ _ Hi1).
  unfold conj_values. rewrite !last_last. cbn [Nat.eqb].
  rewrite tget_tabulate by (apply in_range_app; auto). rewrite last_last.
  set (x := tget z (pre ++ [0])). set (y := tget z (pre ++ [1])).
  replace (y * -1)%R with (- y)%R by ring.
  rewrite cos_neg, sin_neg.
  destruct c as [|[|c]]; cbn [Nat.eqb]; [ring | ring | lia].
Qed.

Lemma exp_conj_witness :
  (c <- conj z_3_4j ;; exp c) = (e <- exp z_3_4j ;; conj e).
Proof. apply (exp_conj z_3_4j [1]); reflexivity. Defined.

(** ** Tensors without an imaginary channel *)

Lemma select_last_1_missing (t : tensor) :
  (forall n, last_dim (tshape t) = Some n -> n < 2) ->
  select_last 1 t = Error IndexError.
Proof.
  intros H. unfold select_last. destruct (last_dim (tshape t)) as [n|]; [|reflexivity].
  specialize (H n eq_refl). destruct (Nat.ltb_spec 1 n); [lia|reflexivity].
Qed.

Lemma select_last_error (k : nat) (t : tensor) :
  select_last k t = Error IndexError \/ exists r, select_last k t = OK r.
Proof.
  unfold select_last. destruct (last_dim (tshape t)) as [n|]; [|now left].
  destruct (k <? n); [right; eauto|now left].
Qed.

(** X9: the primitives that carry no check never return a result on a tensor
    that is 0-dimensional or whose trailing axis is shorter than 2: [conj],
    [angle] and [exp] raise an index error, and so does every product with
    it. *)
Theorem unchecked_primitives_index_error (t : tensor) :
  (forall n, last_dim (tshape t) = Some n -> n < 2) ->
  conj t = Error IndexError /\
  angle t = Error IndexError /\
  exp t = Error IndexError /\
  multiply_complex t t = Error IndexError /\
  (forall u r, multiply_complex t u <> OK r) /\
  (forall u r, multiply_complex u t <> OK r).
Proof.
  intros H. pose proof (select_last_1_missing t H) as H1.
  assert (Hmul : forall u r, multiply_complex t u <> OK r).
  { intros u r. unfold multiply_complex.
    destruct (select_last 0 t); [cbn [bind]|discriminate].
    destruct (select_last 0 u); [cbn [bind]|discriminate].
    destruct (bop Rmult a a0); [cbn [bind]|discriminate].
    rewrite H1. discriminate. }
  unfold conj, angle, exp. rewrite H1. cbn [bind].
  repeat split; auto.
  - destruct (select_last_error 0 t) as [E|[r E]]; rewrite E; reflexivity.
  - unfold multiply_complex.
    destruct (select_last 0 t) as [a|] eqn:E; cbn [bind].
    + destruct (bop Rmult a a) eqn:Eb; cbn [bind].
      * now rewrite H1.
      * exfalso. unfold select_last in E.
        destruct (last_dim (tshape t)); [|discriminate].
        destruct (0 <? n); [|discriminate]. injection E as <-.
        rewrite bop_same in Eb by reflexivity. discriminate.
    + destruct (select_last_error 0 t) as [E'|[r E']]; congruence.
  - intros u r. unfold multiply_complex.
    destruct (select_last 0 u); [cbn [bind]|discriminate].
    destruct (select_last 0 t); [cbn [bind]|discriminate].
    destruct (bop Rmult a a0); [cbn [bind]|discriminate].
    destruct (select_last 1 u); [cbn [bind]|discriminate].
    rewrite H1. discriminate.
Qed.

Lemma unchecked_primitives_index_error_witness :
  conj only_real = Error IndexError /\
  angle only_real = Error IndexError /\
  exp only_real = Error IndexError /\
  multiply_complex only_real only_real = Error IndexError /\
  (forall u r, multiply_complex only_real u <> OK r) /\
  (forall u r, multiply_complex u only_real <> OK r).
Proof.
  apply unchecked_primitives_index_error.
  intros n Hn. injection Hn as <-. lia.
Defined.

(** ** Forward and backward rules, entry by entry *)

(** X10: the backward rule of the differentiable squared magnitude scales
    every entry of the input by the output gradient of its position. *)
Theorem ComplexAbs2_backward_values (z g : tensor) (s : list nat) :
  wf g -> tshape z = s ++ [2] -> tshape g = s ->
  ComplexAbs2_backward z g
  = OK (tabulate (s ++ [2]) (fun idx =>
          Rmult (tget z idx) (tget g (removelast idx)))).
Proof.
  intros Hwg Hz Hg.
  unfold ComplexAbs2_backward. fold (r2c g). rewrite (r2c_eq g Hwg), Hg.
  cbn [bind].
  rewrite (multiply_same_eq z _ s 2 2) by (assumption || reflexivity || lia).
  f_equal. apply tabulate_ext. intros idx Hin. unfold mul_values.
  complex_position Hin pre c Hpre Hc Hi0 Hi1.
  rewrite (tget_tabulate _ _ _ Hi0), (tget_tabulate _ _ _ Hi1).
  rewrite !last_last, !removelast_last. cbn [Nat.eqb].
  destruct c as [|[|c]]; cbn [Nat.eqb]; [ring | ring | lia].
Qed.

Lemma ComplexAbs2_backward_values_witness :
  ComplexAbs2_backward one_c one_r
  = OK (tabulate ([1] ++ [2]) (fun idx =>
          Rmult (tget one_c idx) (tget one_r (removelast idx)))).
Proof. apply (ComplexAbs2_backward_values one_c one_r [1]); reflexivity. Defined.

(** X11: for operands and an output gradient of one complex shape, the
    backward rule of the differentiable product returns [conj(z2) * g] for
    the first operand and [conj(z1) * g] for the second, entry by entry and
    of the operands' shape. *)
Theorem ComplexMul_backward_values (z1 z2 g : tensor) (s : list nat) :
  tshape z1 = s ++ [2] -> tshape z2 = s ++ [2] -> tshape g = s ++ [2] ->
  ComplexMul_backward (z1, z2) g
  = OK (tabulate (s ++ [2]) (mul_grad_values z2 g),
        tabulate (s ++ [2]) (mul_grad_values z1 g)).
Proof.
  intros H1 H2 Hg. rewrite ComplexMul_backward_eq. unfold ComplexMul_product, rank.
  rewrite H1, H2, Nat.ltb_irrefl.
  rewrite (conj_eq z1 s 2 H1), (conj_eq z2 s 2 H2) by lia. cbn [bind].
  rewrite !(multiply_same_eq _ g s 2 2) by (assumption || reflexivity || lia).
  cbn [bind]. f_equal. f_equal; apply tabulate_ext; intros idx Hin;
    unfold mul_values, mul_grad_values;
    complex_position Hin pre c Hpre Hc Hi0 Hi1;
    rewrite (tget_tabulate _ _ _ Hi0), (tget_tabulate _ _ _ Hi1);
    unfold conj_values; rewrite !last_last; cbn [Nat.eqb];
    destruct (c =? 0); ring.
Qed.

Lemma ComplexMul_backward_values_witness :
  ComplexMul_backward (z_3_4j, z_5_6j) one_c
  = OK (tabulate ([1] ++ [2]) (mul_grad_values z_5_6j one_c),
        tabulate ([1] ++ [2]) (mul_grad_values z_3_4j one_c)).
Proof. apply (ComplexMul_backward_values z_3_4j z_5_6j one_c [1]); reflexivity. Defined.

(** ** Shifts: even axes, shapes and invalid axes *)

Lemma roll_congr (t : tensor) (a b : Z) (d : nat) :
  Z.modulo (a - b) (Z.of_nat (nth d (tshape t) 0)) = 0%Z ->
  roll t a d = roll t b d.
Proof.
  intros H. unfold roll. apply tabulate_ext. intros idx _. f_equal.
  unfold roll_source. f_equal. f_equal.
  set (n := Z.of_nat (nth d (tshape t) 0)) in *.
  set (i := Z.of_nat (nth d idx 0)).
  destruct (Z.eq_dec n 0) as [Hn|Hn].
  - rewrite Hn in H |- *. rewrite Z.mod_0_r in H. rewrite !Z.mod_0_r. lia.
  - apply Z.mod_divide in H; [|exact Hn]. destruct H as [q Hq].
    replace (i - a)%Z with (i - b + (- q) * n)%Z by lia.
    apply Z.mod_add. exact Hn.
Qed.

Lemma even_axes_tail (t : tensor) (a : Z) (axes : list Z) :
  even_axes t (a :: axes) -> even_axes t axes.
Proof. intros H b ax Hin. apply H. now right. Qed.

Lemma even_axes_shape (t u : tensor) (axes : list Z) :
  tshape u = tshape t -> even_axes t axes -> even_axes u axes.
Proof. intros Hs H a ax Hin. unfold rank. rewrite Hs. now apply H. Qed.

Lemma half_shift_congr (n : nat) :
  Nat.even n = true ->
  ((Z.of_nat (n / 2) - -1 * Z.of_nat (n / 2)) mod Z.of_nat n = 0)%Z.
Proof.
  intros He. apply Nat.even_spec in He. destruct He as [m ->].
  replace (2 * m / 2) with m by (symmetry; rewrite Nat.mul_comm; apply Nat.div_mul; lia).
  replace (Z.of_nat m - -1 * Z.of_nat m)%Z with (1 * Z.of_nat (2 * m))%Z by lia.
  destruct m as [|m]; [reflexivity|]. apply Z.mod_mul. lia.
Qed.

Lemma fftshift_eq_ifftshift (axes : list Z) (t : tensor) :
  Forall (valid_axis (rank t)) axes -> even_axes t axes ->
  fftshift t axes = ifftshift t axes.
Proof.
  rewrite fftshift_shift_axes, ifftshift_shift_axes.
  revert t. induction axes as [|a axes IH]; intros t Hv He; [reflexivity|].
  inversion Hv as [|? ? Ha Hrest]; subst.
  destruct (norm_axis_valid _ _ Ha) as (ax & Hax & Hlt).
  rewrite !(shift_axes_cons _ t a axes ax Hax).
  set (n := nth ax (tshape t) 0).
  rewrite (roll_congr t _ (-1 * Z.of_nat (n / 2))%Z ax).
  - apply IH; [now rewrite rank_roll|].
    apply even_axes_shape with t; [apply tshape_roll|].
    now apply even_axes_tail with a.
  - apply half_shift_congr. apply (He a ax); [now left|exact Hax].
Qed.

(** X12: over valid axes of even length [fftshift] and [ifftshift] are the
    same operation, and applying [fftshift] twice returns the tensor. *)
Theorem fftshift_even_axes (t : tensor) (axes : list Z) :
  wf t -> Forall (valid_axis (rank t)) axes -> even_axes t axes ->
  fftshift t axes = ifftshift t axes /\
  (r <- fftshift t axes ;; fftshift r axes) = OK t.
Proof.
  intros Hwf Hv He. split; [now apply fftshift_eq_ifftshift|].
  pose proof (ifftshift_fftshift t axes Hwf Hv) as Hrt.
  rewrite fftshift_shift_axes in Hrt |- *.
  destruct (shift_axes_total (fun n => Z.of_nat (n / 2)) axes t Hv Hwf)
    as (r & Hr & Hs & Hwr).
  rewrite Hr in Hrt |- *. cbn [bind] in Hrt |- *.
  rewrite fftshift_eq_ifftshift; [exact Hrt| |].
  - unfold rank. now rewrite Hs.
  - now apply even_axes_shape with t.
Qed.

Lemma fftshift_even_axes_witness :
  fftshift m_2x4 [0%Z; (-1)%Z] = ifftshift m_2x4 [0%Z; (-1)%Z] /\
  (r <- fftshift m_2x4 [0%Z; (-1)%Z] ;; fftshift r [0%Z; (-1)%Z]) = OK m_2x4.
Proof.
  apply fftshift_even_axes.
  - reflexivity.
  - repeat constructor; simpl; lia.
  - intros a ax [<-|[<-|[]]] Hn; injection Hn as <-; reflexivity.
Defined.

Lemma norm_axis_invalid (r : nat) (a : Z) :
  ~ valid_axis r a -> norm_axis r a = Error IndexError.
Proof.
  unfold valid_axis, norm_axis. intros H.
  destruct (Z.leb_spec 0 a); destruct (Z.ltb_spec a (Z.of_nat r)); simpl;
    try lia; try reflexivity;
    destruct (Z.leb_spec (- Z.of_nat r) a); destruct (Z.ltb_spec a 0); simpl;
    try lia; reflexivity.
Qed.

Lemma valid_axis_dec (r : nat) (a : Z) : {valid_axis r a} + {~ valid_axis r a}.
Proof.
  unfold valid_axis.
  destruct (Z_le_dec (- Z.of_nat r) a); destruct (Z_lt_dec a (Z.of_nat r));
    (left; lia) || (right; lia).
Qed.

Lemma shift_axes_invalid (f : nat -> Z) (axes : list Z) (t : tensor) :
  wf t -> ~ Forall (valid_axis (rank t)) axes ->
  shift_axes f t axes = Error IndexError.
Proof.
  revert t. induction axes as [|a axes IH]; intros t Hwf Hn.
  - exfalso. apply Hn. constructor.
  - destruct (valid_axis_dec (rank t) a) as [Ha|Ha].
    + destruct (norm_axis_valid _ _ Ha) as (ax & Hax & Hlt).
      rewrite (shift_axes_cons f t a axes ax Hax).
      apply IH; [apply wf_roll|]. rewrite rank_roll. intros Hr. apply Hn.
      now constructor.
    + unfold shift_axes. cbn [for_each]. now rewrite (norm_axis_invalid _ _ Ha).
Qed.

(** X13: a shift over valid axes keeps the shape of the tensor; a shift over
    a list that holds an axis outside [-rank, rank) raises an index error,
    wherever the axis stands in the list. *)
Theorem shift_shape_and_axis_error (t : tensor) (good bad : list Z) :
  wf t -> Forall (valid_axis (rank t)) good ->
  ~ Forall (valid_axis (rank t)) bad ->
  (exists r, fftshift t good = OK r /\ tshape r = tshape t) /\
  (exists r, ifftshift t good = OK r /\ tshape r = tshape t) /\
  fftshift t bad = Error IndexError /\
  ifftshift t bad = Error IndexError.
Proof.
  intros Hwf Hg Hb. repeat split.
  - destruct (shift_axes_total (fun n => Z.of_nat (n / 2)) good t Hg Hwf)
      as (r & Hr & Hs & _). exists r. split; [exact Hr|exact Hs].
  - destruct (shift_axes_total (fun n => (-1 * Z.of_nat (n / 2))%Z) good t Hg Hwf)
      as (r & Hr & Hs & _). exists r. split; [exact Hr|exact Hs].
  - exact (shift_axes_invalid (fun n => Z.of_nat (n / 2)) bad t Hwf Hb).
  - exact (shift_axes_invalid (fun n => (-1 * Z.of_nat (n / 2))%Z) bad t Hwf Hb).
Qed.

Lemma shift_shape_and_axis_error_witness :
  (exists r, fftshift m_2x3 [0%Z; (-1)%Z] = OK r /\ tshape r = tshape m_2x3) /\
  (exists r, ifftshift m_2x3 [0%Z; (-1)%Z] = OK r /\ tshape r = tshape m_2x3) /\
  fftshift m_2x3 [0%Z; 2%Z] = Error IndexError /\
  ifftshift m_2x3 [0%Z; 2%Z] = Error IndexError.
Proof.
  apply shift_shape_and_axis_error.
  - reflexivity.
  - repeat constructor; simpl; lia.
  - intros H. inversion H as [|? ? _ H']; subst.
    inversion H' as [|? ? [_ Hlt] _]; subst. simpl in Hlt. lia.
Defined.

(** * Further properties of the propagation code *)

(** ** Convolution with the unit kernel *)

Lemma multiply_unit (F : tensor) (s : list nat) :
  wf F -> tshape F = s ++ [2] ->
  multiply_complex F (tabulate (s ++ [2]) unit_kernel_values) = OK F /\
  multiply_complex (tabulate (s ++ [2]) unit_kernel_values) F = OK F.
Proof.
  intros Hwf Hs.
  rewrite (multiply_same_eq F _ s 2 2), (multiply_same_eq _ F s 2 2)
    by (assumption || reflexivity || lia).
  split; f_equal;
    (transitivity (tabulate (tshape F) (tget F)); [|now apply tabulate_tget]);
    rewrite Hs; apply tabulate_ext; intros idx Hin; unfold mul_values;
    complex_position Hin pre c Hpre Hc Hi0 Hi1;
    rewrite (tget_tabulate _ _ _ Hi0), (tget_tabulate _ _ _ Hi1);
    unfold unit_kernel_values; rewrite !last_last; cbn [Nat.eqb];
    (destruct c as [|[|c]]; cbn [Nat.eqb]; [ring | ring | lia]).
Qed.

(** X14: convolving a field with the kernel that is [1 + 0j] everywhere
    returns the field, in place or not. *)
Theorem convolve_unit_kernel
  (torch_fft torch_ifft : tensor -> nat -> result tensor)
  (field : tensor) (n_dim : nat) (flag_inplace : bool) :
  fourier_pair torch_fft torch_ifft -> fft_domain n_dim field ->
  convolve_kernel torch_fft torch_ifft field
    (tabulate (tshape field) unit_kernel_values) n_dim flag_inplace
  = OK field.
Proof.
  intros HP Hd.
  destruct (fft_total HP n_dim field Hd) as (F & HF & HsF & HwF).
  pose proof (ifft_fft HP n_dim field F Hd HF) as Hinv.
  destruct Hd as (_ & Hl & _).
  destruct (last_dim_inv _ _ Hl) as [s Hs]. rewrite Hs in HsF |- *.
  unfold convolve_kernel.
  destruct flag_inplace; rewrite HF; cbn [bind];
    rewrite (proj1 (multiply_unit F s HwF HsF)); cbn [bind];
    rewrite Hinv; reflexivity.
Qed.

Lemma convolve_unit_kernel_witness :
  convolve_kernel dft idft field_1x2
    (tabulate (tshape field_1x2) unit_kernel_values) 2 true
  = OK field_1x2.
Proof.
  apply convolve_unit_kernel; [exact dft_fourier_pair | exact fft_domain_field_1x2].
Defined.

(** ** Multislice propagation over two layers or more, and without a field *)

(** X15: for a volume of two layers or more and a given input field, the
    forward pass multiplies the field by each layer in turn, propagates by
    the spacing after every layer but the last, and by
    [-(L/2 - 1/2) * s] after the last one. *)
Theorem Multislice_forward_two_layers_or_more
  (torch_fft torch_ifft : tensor -> nat -> result tensor)
  (gen : nat * nat -> R -> R -> tensor)
  (h w L : nat) (vx vy s wavelength : R) (obj field : tensor) :
  2 <= L ->
  MultislicePropagation_forward torch_fft torch_ifft
    (MultislicePropagation_init gen (h, w, L) (vx, vy, s) wavelength)
    obj (Some field)
  = multislice_layer_rule
      (SingleSlicePropagation_forward torch_fft torch_ifft
         (SingleSlicePropagation_init gen (h, w) vx wavelength))
      L s obj field.
Proof. apply Multislice_forward_layer_rule. Qed.

Lemma Multislice_forward_two_layers_or_more_witness :
  MultislicePropagation_forward dft idft
    (MultislicePropagation_init (fun _ _ _ => k_pi) (1, 1, 2) (1, 1, 1)%R 1%R)
    volume_1x1x2 (Some field_1x1)
  = multislice_layer_rule
      (SingleSlicePropagation_forward dft idft
         (SingleSlicePropagation_init (fun _ _ _ => k_pi) (1, 1) 1%R 1%R))
      2 1%R volume_1x1x2 field_1x1.
Proof. apply Multislice_forward_two_layers_or_more. lia. Defined.

Lemma layer_eq (obj : tensor) (H W L i : nat) :
  tshape obj = [H; W; L; 2] -> i < L ->
  layer obj i
  = OK (tabulate [H; W; 2] (fun idx => tget obj (insert_nth 2 i idx))).
Proof.
  intros Hs Hi. unfold layer, select_axis, rank. rewrite Hs.
  cbn [length Nat.leb nth remove_nth].
  destruct (Nat.ltb_spec 2 4); [|lia].
  destruct (Nat.ltb_spec i L); [reflexivity|lia].
Qed.

(** X16: without an input field the forward pass returns what it returns
    for the plane wave [1 + 0j]: skipping the product with layer 0 is
    multiplying by one. *)
Theorem Multislice_forward_without_field
  (torch_fft torch_ifft : tensor -> nat -> result tensor)
  (self : MultislicePropagation) (obj : tensor) (H W L : nat) :
  tshape obj = [H; W; L; 2] -> 1 <= L ->
  MultislicePropagation_forward torch_fft torch_ifft self obj None
  = MultislicePropagation_forward torch_fft torch_ifft self obj
      (Some (unit_field H W)).
Proof.
  intros Hs HL. unfold MultislicePropagation_forward.
  destruct (shape self) as [[h w] shape2].
  destruct (voxel_size self) as [[vx vy] vz].
  rewrite (layer_eq obj H W L 0 Hs) by lia. cbn [bind].
  set (l0 := tabulate [H; W; 2] (fun idx => tget obj (insert_nth 2 0 idx))).
  assert (Hmul : complex_mul (unit_field H W) l0 = OK l0).
  { unfold complex_mul, ComplexMul_forward.
    rewrite !assert_complex_accepts by reflexivity. cbn [bind].
    unfold unit_field.
    pose proof (proj2 (multiply_unit l0 [H; W] (wf_tabulate _ _) eq_refl)) as Hm.
    cbn [app] in Hm. rewrite Hm. reflexivity. }
  now rewrite Hmul.
Qed.

Lemma Multislice_forward_without_field_witness :
  MultislicePropagation_forward dft idft multislice_1x1x1 volume_1x1x1 None
  = MultislicePropagation_forward dft idft multislice_1x1x1 volume_1x1x1
      (Some (unit_field 1 1)).
Proof.
  apply (Multislice_forward_without_field dft idft multislice_1x1x1
           volume_1x1x1 1 1 1); [reflexivity | lia].
Defined.

(** ** Every plane of the defocus stack is a single-slice propagation *)







(** ** The backward pass of the defocus stack *)

Lemma conj_twice_tabulate (s : list nat) (f : list nat -> R) :
  tabulate (s ++ [2]) (conj_values (tabulate (s ++ [2])
                         (conj_values (tabulate (s ++ [2]) f))))
  = tabulate (s ++ [2]) f.
Proof.
  apply tabulate_ext. intros idx Hin. unfold conj_values at 1.
  rewrite (tget_tabulate _ _ _ Hin). unfold conj_values.
  rewrite (tget_tabulate _ _ _ Hin).
  destruct (last idx 0 =? 1); [lra|reflexivity].
Qed.

(** X18: for every offset the kernel of the backward pass is the complex
    conjugate of the kernel of the forward pass. *)
Theorem Defocus_backward_kernel_conj (kernel : tensor) (s : list nat) (d : R) :
  wf kernel -> tshape kernel = s ++ [2] ->
  Defocus_backward_kernel kernel d
  = (k <- Defocus_forward_kernel kernel d ;; conj k).
Proof.
  intros Hwf Hk. unfold Defocus_backward_kernel, Defocus_forward_kernel.
  rewrite (exp_eq _ s 2) by (exact Hk || lia). cbn [bind].
  destruct (Rlt_dec d 0) as [Hneg|Hnn].
  - rewrite Rlt_dec_false by lra.
    rewrite (conj_eq _ s 2) by (reflexivity || lia). cbn [bind].
    rewrite (conj_eq _ s 2) by (reflexivity || lia).
    now rewrite conj_twice_tabulate.
  - destruct (Rlt_dec 0 d) as [Hpos|Hnp]; [reflexivity|].
    assert (Hd : d = 0%R) by lra. subst d.
    rewrite (conj_eq _ s 2) by (reflexivity || lia). cbn [bind].
    rewrite (conj_eq _ s 2) by (reflexivity || lia).
    rewrite conj_twice_tabulate. f_equal.
    apply tabulate_ext. intros idx Hin. unfold conj_values.
    rewrite (tget_tabulate _ _ _ Hin). unfold exp_values.
    complex_position Hin pre c Hpre Hc Hi0 Hi1.
    rewrite <- Hk in Hi1.
    rewrite (tget_tmap _ kernel _ Hwf Hi1).
    destruct (Nat.eqb_spec c 1); [|reflexivity].
    rewrite Rabs_R0, Rmult_0_l, sin_0. lra.
Qed.

Lemma Defocus_backward_kernel_conj_witness :
  Defocus_backward_kernel kernel_1x2 (-2)
  = (k <- Defocus_forward_kernel kernel_1x2 (-2) ;; conj k).
Proof. apply (Defocus_backward_kernel_conj kernel_1x2 [1; 2]); reflexivity. Defined.

Lemma Defocus_backward_kernel_shape (kernel : tensor) (s : list nat) (d : R) :
  tshape kernel = s ++ [2] ->
  exists kt, Defocus_backward_kernel kernel d = OK kt /\ tshape kt = s ++ [2].
Proof.
  intros Hk. unfold Defocus_backward_kernel.
  rewrite (exp_eq _ s 2) by (exact Hk || lia). cbn [bind].
  destruct (Rlt_dec d 0).
  - eexists. split; reflexivity.
  - rewrite (conj_eq _ s 2) by (reflexivity || lia). eexists. split; reflexivity.
Qed.

Lemma length_upd_nth_R (l : list R) (d : nat) (x : R) :
  length (upd_nth d x l) = length l.
Proof.
  revert d. induction l as [|y l IH]; intros d.
  - destruct d; reflexivity.
  - destruct d as [|d]; simpl; [reflexivity|]. now rewrite IH.
Qed.

(** One offset of the loop of [Defocus.backward]. *)
Lemma Defocus_backward_step_shape (kernel F : tensor) (offs : list R)
  (H W D i : nat) (T : tensor) (gdl : list R) :
  tshape kernel = [H; W; 2] -> tshape F = [H; W; 2] ->
  tshape T = [D; H; W; 2] -> length gdl = D -> i < D ->
  exists T' gdl',
    (kernel_temp <- Defocus_backward_kernel kernel (nth i offs 0%R) ;;
     slice <- select_axis 0 i T ;;
     prod <- multiply_complex slice kernel_temp ;;
     grad_output <- assign_first i prod T ;;
     slice <- select_axis 0 i grad_output ;;
     cf <- conj F ;;
     m <- multiply_complex slice cf ;;
     ck <- conj kernel ;;
     m <- multiply_complex m ck ;;
     m <- sum_axes01 m ;;
     m <- select_axis 0 0 m ;;
     grad_defocus_list <- assign_scalar i m gdl ;;
     OK (grad_output, grad_defocus_list)) = OK (T', gdl') /\
    tshape T' = [D; H; W; 2] /\ wf T' /\ length gdl' = D.
Proof.
  intros Hk HF HT Hg Hi.
  destruct (Defocus_backward_kernel_shape kernel [H; W] (nth i offs 0%R) Hk)
    as (kt & -> & Hkt). cbn [bind].
  rewrite (select_axis0_eq T D [H; W; 2] i HT Hi). cbn [bind].
  rewrite (multiply_same_eq _ kt [H; W] 2 2) by (reflexivity || assumption || lia).
  cbn [bind].
  rewrite (assign_first_eq T _ D [H; W; 2] i HT Hi) by reflexivity. cbn [bind].
  rewrite (select_axis0_eq _ D [H; W; 2] i) by (reflexivity || assumption).
  cbn [bind].
  rewrite (conj_eq F [H; W] 2 HF) by lia. cbn [bind].
  rewrite (multiply_same_eq _ _ [H; W] 2 2) by (reflexivity || lia). cbn [bind].
  rewrite (conj_eq kernel [H; W] 2 Hk) by lia. cbn [bind].
  rewrite (multiply_same_eq _ _ [H; W] 2 2) by (reflexivity || lia). cbn [bind].
  unfold sum_axes01, sum_axis, rank.
  cbn [tshape tabulate app length Nat.leb Nat.ltb bind remove_nth nth].
  unfold select_axis, rank.
  cbn [tshape tabulate length Nat.leb Nat.ltb andb bind remove_nth nth].
  unfold assign_scalar. rewrite Hg.
  destruct (Nat.ltb_spec i D); [|lia].
  cbn [tshape tabulate strip_ones bind].
  eexists. eexists. split; [reflexivity|].
  split; [reflexivity|]. split; [apply wf_tabulate|].
  now rewrite length_upd_nth_R.
Qed.

(** X19: with the offsets in a tensor, the backward pass of the defocus stack
    returns a gradient of the shape of the field and one gradient per
    offset. *)
Theorem Defocus_backward_tensor_offsets
  (torch_fft torch_ifft : tensor -> nat -> result tensor)
  (kernel F g : tensor) (offs : list R) (H W : nat) :
  fourier_pair torch_fft torch_ifft ->
  tshape kernel = [H; W; 2] -> tshape F = [H; W; 2] ->
  wf g -> tshape g = [H; W; length offs; 2] ->
  0 < H -> 0 < W -> offs <> [] ->
  exists grad_field grad_offsets,
    Defocus_backward torch_fft torch_ifft (kernel, F, TorchTensor offs) g
    = OK (grad_field, grad_offsets) /\
    tshape grad_field = [H; W; 2] /\
    length grad_offsets = length offs.
Proof.
  intros HP Hk HF Hwg Hg HH HW Hne.
  set (D := length offs) in *.
  assert (HD : 0 < D) by (unfold D; destruct offs; [congruence|simpl; lia]).
  unfold Defocus_backward. cbn [clone_defocus_list bind offsets]. fold D.
  unfold permute at 1. unfold rank. rewrite Hg.
  cbn [length map is_permutation Nat.eqb andb forallb seq existsb orb nth bind].
  match goal with
  | |- context [torch_fft ?G 2] => set (G0 := G)
  end.
  assert (HdG : fft_domain 2 G0).
  { split; [apply wf_tabulate|]. split; [reflexivity|]. split; [lia|].
    split; [unfold rank; simpl; lia|]. repeat constructor; assumption. }
  destruct (fft_total HP 2 G0 HdG) as (G & HG & HsG & HwG).
  change (tshape G0) with [D; H; W; 2] in HsG.
  rewrite HG. cbn [bind].
  match goal with
  | |- context [for_each (seq 0 D) ?body (G, offs)] =>
      destruct (for_each_invariant nat (tensor * list R)
                  (fun st => tshape (fst st) = [D; H; W; 2] /\ wf (fst st) /\
                             length (snd st) = D)
                  (seq 0 D) body (G, offs))
        as ([T gdl] & Hloop & HsT & HwT & Hlen)
  end.
  { intros i [T gdl] Hi (HsT & _ & Hlen). apply in_seq in Hi.
    cbn [fst snd] in HsT, Hlen.
    destruct (Defocus_backward_step_shape kernel F offs H W D i T gdl
                Hk HF HsT Hlen) as (T' & gdl' & Hstep & HsT' & HwT' & Hlen');
      [lia|].
    exists (T', gdl'). split; [exact Hstep|]. cbn [fst snd]. auto. }
  { cbn [fst snd]. auto. }
  cbn [fst snd] in HsT, HwT, Hlen.
  rewrite Hloop. cbn [bind].
  assert (HdT : fft_domain 2 T).
  { split; [exact HwT|]. unfold rank. rewrite HsT.
    split; [reflexivity|]. split; [lia|]. split; [simpl; lia|].
    repeat constructor; assumption. }
  destruct (ifft_total HP 2 T HdT) as (T' & HT' & HsT' & HwT').
  rewrite HT'. cbn [bind]. rewrite HsT in HsT'.
  rewrite (defocus_unstack_eq T' H W D HsT'). cbn [bind].
  unfold sum_axis, rank.
  cbn [tshape tabulate length Nat.ltb Nat.leb bind remove_nth nth].
  eexists. eexists. split; [reflexivity|]. split; [reflexivity|exact Hlen].
Qed.

Lemma Defocus_backward_tensor_offsets_witness :
  exists grad_field grad_offsets,
    Defocus_backward dft idft (kernel_1x2, field_1x2, TorchTensor [1; -2]%R)
      grad_1x2x2
    = OK (grad_field, grad_offsets) /\
    tshape grad_field = [1; 2; 2] /\
    length grad_offsets = length [1; -2]%R.
Proof.
  apply (Defocus_backward_tensor_offsets dft idft kernel_1x2 field_1x2
           grad_1x2x2 [1; -2]%R 1 2).
  - exact dft_fourier_pair.
  - reflexivity.
  - reflexivity.
  - reflexivity.
  - reflexivity.
  - lia.
  - lia.
  - discriminate.
Defined.
